(** * OneTab Analyzer: domain extraction and the interactive session

    A shallow embedding of [onetab-analyzer.js].  Strings are Rocq
    [string]s (sequences of 8-bit characters); the JavaScript built-ins the
    program calls are collected in the module [JS], restricted to the ASCII
    range (letters outside A-Z are left alone by [toLowerCase], the
    whitespace class is the ASCII one).  JavaScript numbers produced by
    [parseInt] are modelled as exact integers; [NaN] is [None].  The
    program's numbers are doubles, which hold every integer up to 2^53
    ([maxSafe]) exactly and round larger ones: a reading above [maxSafe]
    keeps its sign in the program but not its exact value, and no theorem
    below claims an exact value there. *)

From Stdlib Require Import ZArith Ascii String.
From stdpp Require Import gmap strings list pretty sorting.

Local Open Scope Z_scope.

(* ------------------------------------------------------------------------- *)
(** ** JavaScript built-ins used by the program *)
(* ------------------------------------------------------------------------- *)

Module JS.

(** [String.prototype.split] with a one-character separator. *)
Fixpoint split (sep : ascii) (s : string) : list string :=
  match s with
  | EmptyString => [EmptyString]
  | String a s' =>
      if Ascii.eqb a sep then EmptyString :: split sep s'
      else match split sep s' with
           | [] => [String a EmptyString]
           | x :: r => String a x :: r
           end
  end.

(** [Array.prototype.join]. *)
Definition join (sep : string) (l : list string) : string :=
  String.concat sep l.

(** [Array.prototype.slice(start)]: a negative [start] counts from the
    end, and both directions are clamped to the array. *)
Definition slice {A} (start : Z) (l : list A) : list A :=
  let len := Z.of_nat (length l) in
  let k := if start <? 0 then Z.max (len + start) 0 else Z.min start len in
  drop (Z.to_nat k) l.

(** [String.prototype.endsWith]. *)
Definition endsWith (s suffix : string) : bool :=
  let n := String.length s in
  let m := String.length suffix in
  (m <=? n)%nat && String.eqb (String.substring (n - m) m s) suffix.

(** [String.prototype.includes]: some tail of [s] starts with [needle]. *)
Fixpoint includes (s needle : string) : bool :=
  String.prefix needle s ||
  match s with
  | EmptyString => false
  | String _ s' => includes s' needle
  end.

Definition lower_char (c : ascii) : ascii :=
  let n := nat_of_ascii c in
  if ((65 <=? n) && (n <=? 90))%nat then ascii_of_nat (n + 32) else c.

(** [String.prototype.toLowerCase]. *)
Fixpoint toLowerCase (s : string) : string :=
  match s with
  | EmptyString => EmptyString
  | String c s' => String (lower_char c) (toLowerCase s')
  end.

Definition is_space (c : ascii) : bool :=
  let n := nat_of_ascii c in
  ((9 <=? n) && (n <=? 13))%nat || (n =? 32)%nat.

Fixpoint trimStart (s : string) : string :=
  match s with
  | EmptyString => EmptyString
  | String c s' => if is_space c then trimStart s' else s
  end.

Fixpoint trimEnd (s : string) : string :=
  match s with
  | EmptyString => EmptyString
  | String c s' =>
      let r := trimEnd s' in
      if is_space c && String.eqb r EmptyString then EmptyString
      else String c r
  end.

(** [String.prototype.trim]. *)
Definition trim (s : string) : string := trimEnd (trimStart s).

Definition digit_of (c : ascii) : option Z :=
  let n := nat_of_ascii c in
  if ((48 <=? n) && (n <=? 57))%nat then Some (Z.of_nat n - 48) else None.

(** The value of the longest prefix of decimal digits; [acc] is [None]
    until a first digit has been read. *)
Fixpoint digits (s : string) (acc : option Z) : option Z :=
  match s with
  | EmptyString => acc
  | String c s' =>
      match digit_of c with
      | Some d => digits s' (Some (10 * default 0 acc + d))
      | None => acc
      end
  end.

(** [parseInt(s, 10)]: leading whitespace, an optional sign, then the
    longest run of digits; whatever follows is ignored.  [None] is NaN. *)
Definition parseInt (s : string) : option Z :=
  match trimStart s with
  | String "-"%char r => Z.opp <$> digits r None
  | String "+"%char r => digits r None
  | r => digits r None
  end.

(** [input.split(/\s+/)] on a trimmed line: the maximal runs of
    non-space characters.  ([cur] is the run being read.) *)
Fixpoint words_go (s : string) (cur : string) : list string :=
  match s with
  | EmptyString => [cur]
  | String c s' =>
      if is_space c then
        match s' with
        | String c' _ => if is_space c' then words_go s' cur
                         else cur :: words_go s' EmptyString
        | EmptyString => [cur; EmptyString]
        end
      else words_go s' (cur +:+ String c EmptyString)
  end.

Definition splitSpaces (s : string) : list string := words_go s EmptyString.

End JS.

(* ------------------------------------------------------------------------- *)
(** ** Domain extraction *)
(* ------------------------------------------------------------------------- *)

Definition MULTI_PART_TLDS : list string :=
  [ "co.uk"; "co.nz"; "co.jp"; "co.il";
    "com.au"; "com.br"; "org.uk";
    "github.io"; "gitlab.io"; "vercel.app"; "netlify.app" ].

(** The [for (const tld of MULTI_PART_TLDS)] loop with its early return;
    [None] means the loop ran to its end. *)
Fixpoint matchTld (hostname : string) (parts : list string)
    (tlds : list string) : option string :=
  match tlds with
  | [] => None
  | tld :: rest =>
      if JS.endsWith hostname ("." +:+ tld) then
        let tldPartCount := length (JS.split "." tld) in
        Some (JS.join "." (JS.slice (- (Z.of_nat tldPartCount + 1)) parts))
      else matchTld hostname parts rest
  end.

Section Extraction.

(** [new URL(s).hostname] is the platform's parser: [None] when the
    constructor throws. *)
Variable URL_hostname : string -> option string.

Definition extractDomain (urlString : string) : option string :=
  match URL_hostname (JS.trim urlString) with
  | None => None
  | Some h =>
      let hostname := JS.toLowerCase h in
      let parts := JS.split "." hostname in
      match matchTld hostname parts MULTI_PART_TLDS with
      | Some d => Some d
      | None => Some (JS.join "." (JS.slice (-2) parts))
      end
  end.

End Extraction.

(** A small stand-in for the platform parser, enough to run the program on
    everyday [http(s)://host[:port][/path][?query][#fragment]] inputs with
    an ASCII host.  The theorems below hold for every parser. *)
Module SampleURL.

Definition ends_authority (c : ascii) : bool :=
  Ascii.eqb c "/" || Ascii.eqb c "?" || Ascii.eqb c "#".

Fixpoint authority (s : string) : string :=
  match s with
  | EmptyString => EmptyString
  | String c s' => if ends_authority c then EmptyString
                   else String c (authority s')
  end.

(** Drops a trailing [:port]. *)
Fixpoint dropPort (s : string) : string :=
  match s with
  | EmptyString => EmptyString
  | String c s' => if Ascii.eqb c ":" then EmptyString
                   else String c (dropPort s')
  end.

Definition afterScheme (s : string) : option string :=
  let l := JS.toLowerCase (String.substring 0 8 s) in
  if String.prefix "https://" l then
    Some (String.substring 8 (String.length s - 8) s)
  else if String.prefix "http://" l then
    Some (String.substring 7 (String.length s - 7) s)
  else None.

Definition hostname (s : string) : option string :=
  match afterScheme s with
  | None => None
  | Some r =>
      let h := JS.toLowerCase (dropPort (authority r)) in
      if String.eqb h EmptyString then None else Some h
  end.

End SampleURL.

(* ------------------------------------------------------------------------- *)
(** ** Entries and the grouping index *)
(* ------------------------------------------------------------------------- *)

Record Entry := mkEntry {
  url : string;
  title : string;
  domain : string;
  raw : string
}.

(** The JavaScript [Map] of the program keeps its keys in insertion order,
    which the display order depends on: an association list without
    repeated keys. *)
Abbreviation Groups := (list (string * list Entry)).

Fixpoint Map_get (k : string) (m : Groups) : option (list Entry) :=
  match m with
  | [] => None
  | (k', v) :: m' => if String.eqb k' k then Some v else Map_get k m'
  end.

Fixpoint Map_set (k : string) (v : list Entry) (m : Groups) : Groups :=
  match m with
  | [] => [(k, v)]
  | (k', v') :: m' =>
      if String.eqb k' k then (k', v) :: m' else (k', v') :: Map_set k v m'
  end.

Definition Map_has (k : string) (m : Groups) : bool :=
  match Map_get k m with Some _ => true | None => false end.

Definition Map_keys (m : Groups) : list string := m.*1.

Definition groupByDomain (entries : list Entry) : Groups :=
  foldl (fun groups entry =>
           let list := default [] (Map_get (domain entry) groups) in
           Map_set (domain entry) (list ++ [entry]) groups)
        [] entries.

(* ------------------------------------------------------------------------- *)
(** ** Display order and reference resolution *)
(* ------------------------------------------------------------------------- *)

Definition count (g : string * list Entry) : nat := length g.2.

(** [Array.prototype.sort] with the comparator [b[1].length - a[1].length]
    is a stable sort by descending count. *)
Fixpoint insertByCount (x : string * list Entry) (l : Groups) : Groups :=
  match l with
  | [] => [x]
  | y :: l' => if (count y <=? count x)%nat then x :: l
               else y :: insertByCount x l'
  end.

Definition sortByCount (l : Groups) : Groups := foldr insertByCount [] l.

(** The closure [getSortedDomains] of [runInteractive]. *)
Definition getSortedDomains (groups : Groups) (threshold : Z) : Groups :=
  sortByCount (filter (fun g => threshold <= Z.of_nat (count g)) groups).

(** The predicate handed to [find]. *)
Definition matchesInput (lower : string) (g : string * list Entry) : bool :=
  String.eqb g.1 lower || JS.includes g.1 lower.

(** The guard [!isNaN(num) && num >= 1 && num <= sortedDomains.length]. *)
Definition isListNumber (num : option Z) (len : nat) : bool :=
  match num with
  | Some n => (1 <=? n) && (n <=? Z.of_nat len)
  | None => false
  end.

(** [resolveDomain]; [None] is [null]. *)
Definition resolveDomain (input : string) (sortedDomains : Groups)
    : option string :=
  let num := JS.parseInt input in
  if isListNumber num (length sortedDomains) then
    fst <$> sortedDomains !! Z.to_nat (default 0 num - 1)
  else
    let lower := JS.toLowerCase input in
    match List.find (matchesInput lower) sortedDomains with
    | Some g => if String.eqb g.1 EmptyString then None else Some g.1
    | None => None
    end.

(** JavaScript truthiness of a string-or-null. *)
Definition truthy (d : option string) : bool :=
  match d with
  | Some s => negb (String.eqb s EmptyString)
  | None => false
  end.

(* ------------------------------------------------------------------------- *)
(** ** The interactive session *)
(* ------------------------------------------------------------------------- *)

Definition ESC : string := String "027"%char EmptyString.
Definition CYAN : string := ESC +:+ "[36m".
Definition YELLOW : string := ESC +:+ "[33m".
Definition GREEN : string := ESC +:+ "[32m".
Definition RED : string := ESC +:+ "[31m".
Definition DIM : string := ESC +:+ "[2m".
Definition BOLD : string := ESC +:+ "[1m".
Definition RESET : string := ESC +:+ "[0m".

(** What a command does to the outside world, in order. *)
Inductive event :=
| Log (line : string)                 (* console.log *)
| Prompt (question : string)          (* rl.question, waits for a line *)
| WriteFile (path data : string)      (* fs.writeFileSync *)
| Close.                              (* rl.close *)

Definition pressEnter : event := Prompt "Press Enter to continue...".

Definition printUrls (d : string) (entries : list Entry) : list event :=
  [Log ("
" +:+ BOLD +:+ "URLs from " +:+ CYAN +:+ d +:+ RESET +:+ BOLD +:+ " ("
        +:+ pretty (length entries) +:+ "):" +:+ RESET +:+ "
")]
  ++ mjoin (imap (fun index entry =>
       Log ("  " +:+ DIM +:+ pretty (index + 1)%nat +:+ "." +:+ RESET +:+ " "
            +:+ url entry)
       :: (if String.eqb (title entry) EmptyString then []
           else [Log ("     " +:+ DIM +:+ title entry +:+ RESET)]))
     entries)
  ++ [Log EmptyString].

(** The two loop variables of [runInteractive]. *)
Record State := mkState {
  threshold : Z;
  markedForDeletion : gset string
}.

(** One turn of the loop either goes round again or returns. *)
Inductive outcome :=
| Continue (st : State)
| Return.

Section Session.

Variable entries : list Entry.
Variable groups : Groups.
Variable inputFile : string.

Definition showCmd (arg : string) (st : State) : outcome * list event :=
  let sortedDomains := getSortedDomains groups (threshold st) in
  let d := resolveDomain arg sortedDomains in
  (Continue st,
   (if truthy d && Map_has (default EmptyString d) groups then
      printUrls (default EmptyString d)
                (default [] (Map_get (default EmptyString d) groups))
    else [Log (RED +:+ "Domain not found" +:+ RESET)])
   ++ [pressEnter]).

Definition deleteCmd (arg : string) (st : State) : outcome * list event :=
  let sortedDomains := getSortedDomains groups (threshold st) in
  let d := resolveDomain arg sortedDomains in
  if truthy d then
    (Continue (mkState (threshold st)
                       ({[ default EmptyString d ]} ∪ markedForDeletion st)),
     [Log (GREEN +:+ "Marked " +:+ default EmptyString d +:+ " for deletion"
           +:+ RESET); pressEnter])
  else
    (Continue st, [Log (RED +:+ "Domain not found" +:+ RESET); pressEnter]).

(** [resolveDomain(arg, sortedDomains) || arg.toLowerCase()]. *)
Definition undoTarget (arg : string) (st : State) : string :=
  let sortedDomains := getSortedDomains groups (threshold st) in
  let r := resolveDomain arg sortedDomains in
  if truthy r then default EmptyString r else JS.toLowerCase arg.

Definition undoCmd (arg : string) (st : State) : outcome * list event :=
  let d := undoTarget arg st in
  if bool_decide (d ∈ markedForDeletion st) then
    (Continue (mkState (threshold st) (markedForDeletion st ∖ {[ d ]})),
     [Log (GREEN +:+ "Unmarked " +:+ d +:+ RESET); pressEnter])
  else
    (Continue st,
     [Log (RED +:+ "Domain not in deletion list" +:+ RESET); pressEnter]).

Definition saveCmd (arg : string) (st : State) : outcome * list event :=
  (Continue st,
   (if String.eqb arg EmptyString then
      [Log (RED +:+ "Please provide filename" +:+ RESET)]
    else if bool_decide (size (markedForDeletion st) = 0%nat) then
      [Log (YELLOW +:+ "No domains marked for deletion" +:+ RESET)]
    else if String.eqb arg inputFile then
      [Log (RED +:+ "Cannot overwrite input file" +:+ RESET)]
    else
      let filtered :=
        filter (fun e => domain e ∉ markedForDeletion st) entries in
      [WriteFile arg (JS.join "
" (raw <$> filtered));
       Log (GREEN +:+ "Saved " +:+ pretty (length filtered) +:+ " URLs to "
            +:+ arg +:+ RESET);
       Log (YELLOW +:+ "Removed "
            +:+ pretty (length entries - length filtered)%nat +:+ " URLs"
            +:+ RESET)])
   ++ [pressEnter]).

Definition thresholdCmd (arg : string) (st : State) : outcome * list event :=
  let newThreshold := JS.parseInt arg in
  match newThreshold with
  | Some n => if 0 <? n
              then (Continue (mkState n (markedForDeletion st)), [])
              else (Continue st, [])
  | None => (Continue st, [])
  end.

(** [const [command, ...args] = input.split(/\s+/)], the command
    lowercased as the [switch] sees it, and [args.join(" ")]. *)
Definition commandOf (input : string) : string :=
  JS.toLowerCase (default EmptyString (head (JS.splitSpaces input))).

Definition argOf (input : string) : string :=
  JS.join " " (tail (JS.splitSpaces input)).

(** The body of the [while] loop from the point where the line typed at
    the prompt has come back (already trimmed by [prompt]).  The screen
    drawn before the prompt reads the state and does not change it. *)
Definition execCommand (input : string) (st : State)
    : outcome * list event :=
  let c := commandOf input in
  let arg := argOf input in
  if String.eqb c "show" || String.eqb c "s" then showCmd arg st
  else if String.eqb c "delete" || String.eqb c "d" then deleteCmd arg st
  else if String.eqb c "undo" || String.eqb c "u" then undoCmd arg st
  else if String.eqb c "save" then saveCmd arg st
  else if String.eqb c "threshold" || String.eqb c "t" then thresholdCmd arg st
  else if String.eqb c "quit" || String.eqb c "q" || String.eqb c "exit"
  then (Return, [Close])
  else (Continue st, []).

Definition awaitsEnter (evs : list event) : bool :=
  match last evs with
  | Some (Prompt _) => true
  | _ => false
  end.

(** The loop, fed the lines that arrive on standard input.  A command
    that ends in "Press Enter to continue..." swallows the next line.
    The result is the state when the loop returned, or when the input
    ran dry, and everything the commands did. *)
Fixpoint runLoop (stdin : list string) (st : State) : State * list event :=
  match stdin with
  | [] => (st, [])
  | line :: rest =>
      match execCommand (JS.trim line) st with
      | (Return, evs) => (st, evs)
      | (Continue st', evs) =>
          let '(final, evs') :=
            if awaitsEnter evs then
              match rest with
              | [] => (st', [])
              | _ :: rest' => runLoop rest' st'
              end
            else runLoop rest st' in
          (final, evs ++ evs')
      end
  end.

Definition runInteractive (initialThreshold : Z) (stdin : list string)
    : State * list event :=
  runLoop stdin (mkState initialThreshold ∅).

End Session.

(* ------------------------------------------------------------------------- *)
(** ** Parsing the export *)
(* ------------------------------------------------------------------------- *)

(** Puts a character in front of the first piece of a split in progress. *)
Definition pushHead (c : ascii) (l : list string) : list string :=
  match l with
  | [] => [String c EmptyString]
  | x :: r => String c x :: r
  end.

(** [trimmed.split(" | ")]: the separator is space, bar, space, found
    from the left without overlap. *)
Fixpoint splitPipe (s : string) : list string :=
  match s with
  | EmptyString => [EmptyString]
  | String c s' =>
      match s' with
      | String c1 (String c2 rest) =>
          if Ascii.eqb c " " && Ascii.eqb c1 "|" && Ascii.eqb c2 " "
          then EmptyString :: splitPipe rest
          else pushHead c (splitPipe s')
      | _ => pushHead c (splitPipe s')
      end
  end.

Definition LF : ascii := "010"%char.
Definition CR : ascii := "013"%char.

(** [content.split(/\r?\n/)]: a line feed ends a line and takes a
    carriage return just before it along. *)
Fixpoint splitLines (s : string) : list string :=
  match s with
  | EmptyString => [EmptyString]
  | String c s' =>
      if Ascii.eqb c LF then EmptyString :: splitLines s'
      else
        match s' with
        | String c1 rest =>
            if Ascii.eqb c CR && Ascii.eqb c1 LF
            then EmptyString :: splitLines rest
            else pushHead c (splitLines s')
        | EmptyString => pushHead c (splitLines s')
        end
  end.

(** [trimmed.match(/^https?:\/\//i)]. *)
Definition matchesHttp (s : string) : bool :=
  let l := JS.toLowerCase s in
  String.prefix "http://" l || String.prefix "https://" l.

Section Parsing.

Variable URL_hostname : string -> option string.

Definition parseLine (line : string) : option Entry :=
  let trimmed := JS.trim line in
  if String.eqb trimmed EmptyString || negb (matchesHttp trimmed) then None
  else
    let pieces := splitPipe trimmed in
    let urlPart := default EmptyString (head pieces) in
    let titleParts := tail pieces in
    let d := extractDomain URL_hostname urlPart in
    if truthy d then
      Some (mkEntry (JS.trim urlPart)
                    (JS.trim (JS.join " | " titleParts))
                    (default EmptyString d)
                    line)
    else None.

Definition parseFile (content : string) : list Entry :=
  omap parseLine (splitLines content).

End Parsing.

(* ------------------------------------------------------------------------- *)
(** ** Start-up *)
(* ------------------------------------------------------------------------- *)

(** [Array.prototype.indexOf]; [None] is -1. *)
Fixpoint indexOf (x : string) (l : list string) : option nat :=
  match l with
  | [] => None
  | y :: l' => if String.eqb y x then Some 0%nat else S <$> indexOf x l'
  end.

(** [Array.prototype.includes]. *)
Definition arrayIncludes (x : string) (l : list string) : bool :=
  existsb (String.eqb x) l.

(** [args.find(a => !a.startsWith("-"))]; [None] is [undefined]. *)
Definition cliInputFile (args : list string) : option string :=
  List.find (fun a => negb (String.prefix "-" a)) args.

(** [thresholdIndex >= 0 ? parseInt(args[thresholdIndex + 1], 10) || 3 : 3].
    A missing argument is [undefined], which [parseInt] reads as the text
    "undefined"; NaN and 0 are the falsy readings. *)
Definition cliThreshold (args : list string) : Z :=
  match indexOf "--threshold" args with
  | Some i =>
      match JS.parseInt (default "undefined" (args !! S i)) with
      | Some n => if n =? 0 then 3 else n
      | None => 3
      end
  | None => 3
  end.

(** What [main] decides to do before any tab is read. *)
Inductive startup :=
| RunTests
| ShowHelp
| FileNotFound (inputFile : option string)
| Start (inputFile : string) (threshold : Z).

(** The head of [main]; [existsSync] is [fs.existsSync], which is false on
    [undefined]. *)
Definition mainStartup (existsSync : string -> bool) (args : list string)
    : startup :=
  if arrayIncludes "--test" args then RunTests
  else if arrayIncludes "--help" args || (length args =? 0)%nat then ShowHelp
  else
    match cliInputFile args with
    | None => FileNotFound None
    | Some f => if existsSync f then Start f (cliThreshold args)
                else FileNotFound (Some f)
    end.

(* ------------------------------------------------------------------------- *)
(** ** The specification's vocabulary *)
(* ------------------------------------------------------------------------- *)

(** "The last [n] labels" of a sequence of labels, said without [slice]. *)
Definition lastLabels {A} (n : nat) (l : list A) : list A :=
  reverse (take n (reverse l)).

(** A label holds no dot. *)
Definition isLabel (s : string) : Prop := JS.split "." s = [s].

Definition labelCount (s : string) : nat := length (JS.split "." s).

(** [needle] occurs somewhere inside [s]. *)
Definition isSubstring (needle s : string) : Prop :=
  ∃ p q, s = p +:+ needle +:+ q.

Definition isDigit (c : ascii) : bool :=
  match JS.digit_of c with Some _ => true | None => false end.

(** The number a string of decimal digits stands for. *)
Definition decimalValue (s : string) : Z :=
  foldl (λ acc c, 10 * acc + default 0 (JS.digit_of c)) 0
        (list_ascii_of_string s).

(** Up to this magnitude a JavaScript number holds every integer
    exactly. *)
Definition maxSafe : Z := 2 ^ 53.

(** A string denotes a positive integer when it is a non-empty run of
    decimal digits, and nothing else, whose value is above zero. *)
Definition denotesPositiveInteger (s : string) : bool :=
  negb (String.eqb s EmptyString)
  && forallb isDigit (list_ascii_of_string s)
  && (0 <? decimalValue s).

(** The paths a run of events wrote to. *)
Definition filesWritten (evs : list event) : list string :=
  omap (λ e, match e with WriteFile path _ => Some path | _ => None end) evs.

(** The state a turn of the loop leaves behind. *)
Definition stateAfter (r : outcome * list event) (st : State) : State :=
  match r.1 with
  | Continue st' => st'
  | Return => st
  end.

(** The states the loop can be in when it asks for the next command. *)
Inductive reachable (entries : list Entry) (groups : Groups)
    (inputFile : string) (initialThreshold : Z) : State → Prop :=
| reachable_start :
    reachable entries groups inputFile initialThreshold
              (mkState initialThreshold ∅)
| reachable_turn st input st' evs :
    reachable entries groups inputFile initialThreshold st →
    execCommand entries groups inputFile input st = (Continue st', evs) →
    reachable entries groups inputFile initialThreshold st'.

(** The distinct elements of a list, each at its first occurrence;
    [seen] holds what came before. *)
Fixpoint firstOccurrences (seen l : list string) : list string :=
  match l with
  | [] => []
  | x :: r => if bool_decide (x ∈ seen) then firstOccurrences seen r
              else x :: firstOccurrences (x :: seen) r
  end.

(** How many entries an index holds in all. *)
Definition totalCount (m : Groups) : nat := sum_list (count <$> m).

(** A string free of line breaks. *)
Definition noLineBreak (s : string) : Prop :=
  Forall (λ c, c ≠ LF ∧ c ≠ CR) (list_ascii_of_string s).

(** A string that stays clear of the " | " separator. *)
Definition noPipe (s : string) : Prop := splitPipe s = [s].

(** [suffix] closes [s]. *)
Definition isSuffix (suffix s : string) : Prop := ∃ p, s = p +:+ suffix.

(** The contents a run of events wrote. *)
Definition dataWritten (evs : list event) : list string :=
  omap (λ e, match e with WriteFile _ data => Some data | _ => None end) evs.

(** A string that does not go on with a digit. *)
Definition noLeadingDigit (s : string) : bool :=
  match s with
  | EmptyString => true
  | String c _ => negb (isDigit c)
  end.

(** A small export to run the session on: two tabs of mygithub.com, one
    of github.com, one of b.org. *)
Definition tab (d path : string) : Entry :=
  mkEntry ("https://" +:+ d +:+ path) "t" d
          ("https://" +:+ d +:+ path +:+ " | t").

Definition exampleTabs : list Entry :=
  [ tab "mygithub.com" "/1"; tab "github.com" "/2";
    tab "mygithub.com" "/3"; tab "b.org" "/4" ].

Definition exampleGroups : Groups := groupByDomain exampleTabs.

(* ------------------------------------------------------------------------- *)
(** ** Facts about the built-ins *)
(* ------------------------------------------------------------------------- *)

Module JSFacts.
Import JS.

(** stdpp keeps [String.append] folded; these two equations unfold it. *)
Lemma append_nil (y : string) : EmptyString +:+ y = y.
Proof. reflexivity. Qed.

Lemma append_cons a (x y : string) : String a x +:+ y = String a (x +:+ y).
Proof. reflexivity. Qed.

Lemma split_nonempty sep s : split sep s ≠ [].
Proof.
  destruct s as [|a s]; simpl; [done|].
  destruct (Ascii.eqb a sep); [done|].
  by destruct (split sep s).
Qed.

Lemma split_length_pos sep s : (0 < length (split sep s))%nat.
Proof.
  pose proof (split_nonempty sep s).
  destruct (split sep s); simpl; [done | lia].
Qed.

(** Splitting distributes over a separator in the middle. *)
Lemma split_app_sep sep p q :
  split sep (p +:+ String sep q) = split sep p ++ split sep q.
Proof.
  induction p as [|a p IH]; rewrite ?append_nil, ?append_cons; simpl.
  - by rewrite Ascii.eqb_refl.
  - rewrite IH. destruct (Ascii.eqb a sep); [done|].
    pose proof (split_nonempty sep p).
    by destruct (split sep p).
Qed.

(** [join] undoes [split]. *)
Lemma join_split sep s : join (String sep EmptyString) (split sep s) = s.
Proof.
  unfold join. induction s as [|a s IH]; simpl; [done|].
  destruct (Ascii.eqb_spec a sep) as [->|Hne].
  - pose proof (split_nonempty sep s).
    destruct (split sep s) as [|x r]; [done|].
    simpl in *. by rewrite IH, append_nil, append_cons, append_nil.
  - pose proof (split_nonempty sep s).
    destruct (split sep s) as [|x r]; [done|].
    destruct r as [|y r]; simpl in *; by rewrite <- IH, ?append_cons.
Qed.

Lemma join_cons sep x y r :
  join sep (x :: y :: r) = x +:+ sep +:+ join sep (y :: r).
Proof. done. Qed.

(** Every piece produced by [split] is free of the separator. *)
Lemma split_pieces sep s : Forall (fun x => split sep x = [x]) (split sep s).
Proof.
  induction s as [|a s IH]; simpl.
  - by constructor.
  - destruct (Ascii.eqb a sep) eqn:E.
    + by constructor.
    + pose proof (split_nonempty sep s).
      destruct (split sep s) as [|x r]; [done|].
      inversion IH as [|? ? Hx Hr]; subst.
      constructor; [|done]. simpl. by rewrite E, Hx.
Qed.

Lemma substring_all s : String.substring 0 (String.length s) s = s.
Proof. induction s; simpl; by f_equal. Qed.

Lemma substring_cut s : ∀ k, (k ≤ String.length s)%nat →
  String.substring 0 k s +:+ String.substring k (String.length s - k) s = s.
Proof.
  induction s as [|a s IH]; intros [|k] Hk; simpl in *; try done; try lia.
  - by rewrite substring_all.
  - rewrite append_cons. f_equal. apply IH. lia.
Qed.

(** [endsWith] finds a genuine suffix. *)
Lemma endsWith_inv s suffix :
  endsWith s suffix = true → ∃ p, s = p +:+ suffix.
Proof.
  unfold endsWith. intros [Hle Heq]%andb_prop.
  apply Nat.leb_le in Hle. apply String.eqb_eq in Heq.
  set (k := (String.length s - String.length suffix)%nat) in *.
  exists (String.substring 0 k s).
  pose proof (substring_cut s k ltac:(lia)) as Hcut.
  replace (String.length s - k)%nat with (String.length suffix) in Hcut
    by lia.
  by rewrite Heq in Hcut.
Qed.

(** [slice] with a negative start keeps the last elements. *)
Lemma slice_neg {A} (n : nat) (l : list A) :
  (0 < n)%nat → slice (- Z.of_nat n) l = lastLabels n l.
Proof.
  intros Hn. unfold slice, lastLabels.
  replace (- Z.of_nat n <? 0) with true by (symmetry; apply Z.ltb_lt; lia).
  rewrite take_reverse, reverse_involutive. f_equal. lia.
Qed.

Lemma slice_short {A} (n : nat) (l : list A) :
  (0 < n)%nat → (length l ≤ n)%nat → slice (- Z.of_nat n) l = l.
Proof.
  intros Hn Hl. unfold slice.
  replace (- Z.of_nat n <? 0) with true by (symmetry; apply Z.ltb_lt; lia).
  replace (Z.to_nat _) with 0%nat by lia. done.
Qed.

Lemma slice_last_app {A} (init : list A) (x : A) (l : list A) :
  slice (- (Z.of_nat (length l) + 1)) ((init ++ [x]) ++ l) = x :: l.
Proof.
  unfold slice.
  replace (- (Z.of_nat (length l) + 1) <? 0) with true
    by (symmetry; apply Z.ltb_lt; lia).
  rewrite !length_app. simpl.
  replace (Z.to_nat _) with (length init) by lia.
  rewrite <- !app_assoc. by rewrite drop_app_length.
Qed.

End JSFacts.

(* ------------------------------------------------------------------------- *)
(** ** Domain extraction: what the loop over the table returns *)
(* ------------------------------------------------------------------------- *)

Section ExtractionFacts.
Import JS JSFacts.

Variable URL_hostname : string → option string.

Lemma dot_append (S : string) : "." +:+ S = String "." S.
Proof. reflexivity. Qed.

(** The loop falls through exactly when no listed suffix matches. *)
Lemma matchTld_none hostname parts tlds :
  Forall (λ S, endsWith hostname ("." +:+ S) = false) tlds →
  matchTld hostname parts tlds = None.
Proof.
  induction 1 as [|S tlds HS _ IH]; simpl; [done|]. by rewrite HS.
Qed.

(** When some listed suffix matches and all listed suffixes have [k]
    labels, the loop returns the last [k + 1] labels. *)
Lemma matchTld_some hostname parts tlds k S :
  Forall (λ T, labelCount T = k) tlds →
  S ∈ tlds → endsWith hostname ("." +:+ S) = true →
  matchTld hostname parts tlds
  = Some (join "." (slice (- (Z.of_nat k + 1)) parts)).
Proof.
  induction 1 as [|T tlds HT _ IH]; intros Hin Hends.
  - by apply elem_of_nil in Hin.
  - simpl. destruct (endsWith hostname ("." +:+ T)) eqn:E.
    + unfold labelCount in HT. by rewrite HT.
    + apply elem_of_cons in Hin as [->|Hin]; [congruence | by apply IH].
Qed.

Lemma table_label_counts : Forall (λ T, labelCount T = 2%nat) MULTI_PART_TLDS.
Proof. unfold MULTI_PART_TLDS. repeat constructor. Qed.

(** A hostname that ends with ["." + S] has, as its last
    [labelCount S + 1] labels, one label followed by those of [S]. *)
Lemma suffix_plus_one hostname S :
  endsWith hostname ("." +:+ S) = true →
  ∃ label, isLabel label ∧
    join "." (slice (- (Z.of_nat (labelCount S) + 1)) (split "." hostname))
    = label +:+ "." +:+ S.
Proof.
  intros [p ->]%endsWith_inv.
  rewrite dot_append, split_app_sep.
  pose proof (split_pieces "." p) as Hpieces.
  pose proof (split_nonempty "." p) as Hne.
  destruct (split "." p) as [|x r _] using rev_ind; [done|].
  exists x. split.
  - apply Forall_app in Hpieces as [_ Hx]. by inversion Hx.
  - unfold labelCount. rewrite slice_last_app.
    pose proof (split_nonempty "." S) as HS.
    pose proof (join_split "." S) as Hjs.
    destruct (split "." S) as [|y t]; [done|].
    by rewrite join_cons, Hjs.
Qed.

Lemma one_label_no_suffix hostname S :
  (labelCount hostname < 2)%nat → endsWith hostname ("." +:+ S) = false.
Proof.
  intros Hlt. destruct (endsWith hostname ("." +:+ S)) eqn:E; [|done].
  apply endsWith_inv in E as [p ->].
  unfold labelCount in Hlt.
  rewrite dot_append, split_app_sep, length_app in Hlt.
  pose proof (split_length_pos "." p). pose proof (split_length_pos "." S).
  lia.
Qed.

(** C2. A hostname that ends with a dot and a listed suffix [S] is
    reduced to its last [labelCount S + 1] labels joined by dots, which
    is [S] with exactly one label in front of it. *)
Theorem extractDomain_listed_suffix url h S :
  URL_hostname (trim url) = Some h →
  S ∈ MULTI_PART_TLDS →
  endsWith (toLowerCase h) ("." +:+ S) = true →
  extractDomain URL_hostname url
  = Some (join "." (lastLabels (labelCount S + 1)
                               (split "." (toLowerCase h))))
  ∧ ∃ label, isLabel label ∧
      extractDomain URL_hostname url = Some (label +:+ "." +:+ S).
Proof.
  intros Hurl Hin Hends. unfold extractDomain. rewrite Hurl. cbv zeta.
  rewrite (matchTld_some _ _ _ 2 S table_label_counts Hin Hends).
  assert (labelCount S = 2%nat) as HS.
  { pose proof table_label_counts as HF.
    rewrite Forall_forall in HF. by apply HF. }
  split.
  - rewrite HS. change (Z.of_nat 2 + 1) with (Z.of_nat (2 + 1)).
    by rewrite slice_neg by lia.
  - destruct (suffix_plus_one _ _ Hends) as (label & Hlabel & Heq).
    exists label. split; [done|]. by rewrite <- Heq, HS.
Qed.

(** C3. When no listed suffix matches, the result is the last two labels
    of the lowercased hostname; a hostname of fewer than two labels comes
    back whole. *)
Theorem extractDomain_fallback url h :
  URL_hostname (trim url) = Some h →
  (Forall (λ S, endsWith (toLowerCase h) ("." +:+ S) = false)
          MULTI_PART_TLDS →
   extractDomain URL_hostname url
   = Some (join "." (lastLabels 2 (split "." (toLowerCase h)))))
  ∧ ((labelCount (toLowerCase h) < 2)%nat →
     extractDomain URL_hostname url = Some (toLowerCase h)).
Proof.
  intros Hurl. unfold extractDomain. rewrite Hurl. cbv zeta. split.
  - intros Hno. rewrite (matchTld_none _ _ _ Hno).
    change (-2) with (- Z.of_nat 2). by rewrite slice_neg by lia.
  - intros Hlt. rewrite matchTld_none.
    + change (-2) with (- Z.of_nat 2).
      rewrite slice_short by (unfold labelCount in Hlt; lia).
      by rewrite join_split.
    + apply Forall_forall. intros S _. by apply one_label_no_suffix.
Qed.

(** C1. The table lists "co.il" but not its sibling "org.il", so a
    hostname under "org.il" is cut down to the bare suffix. *)
Theorem extractDomain_org_il_collapses url :
  URL_hostname (trim url) = Some "example.org.il" →
  ("co.il" ∈ MULTI_PART_TLDS) ∧ ("org.il" ∉ MULTI_PART_TLDS)
  ∧ extractDomain URL_hostname url = Some "org.il"
  ∧ extractDomain URL_hostname url ≠ Some "example.org.il".
Proof.
  intros Hurl. unfold extractDomain. rewrite Hurl.
  split; [compute_done|]. split; [compute_done|].
  split; [reflexivity | discriminate].
Qed.

End ExtractionFacts.

(** The program's own tests of [extractDomain], run on the stand-in
    parser. *)
Example test_simple_domain :
  extractDomain SampleURL.hostname "https://www.example.com/page"
  = Some "example.com".
Proof. reflexivity. Qed.

Example test_github_io :
  extractDomain SampleURL.hostname "https://user.github.io/repo"
  = Some "user.github.io".
Proof. reflexivity. Qed.

Example test_invalid_url :
  extractDomain SampleURL.hostname "not-a-url" = None.
Proof. reflexivity. Qed.

Lemma extractDomain_listed_suffix_witness :
  extractDomain SampleURL.hostname "https://www.bbc.co.uk/news"
  = Some "bbc.co.uk".
Proof.
  apply (proj1 (extractDomain_listed_suffix SampleURL.hostname
                  "https://www.bbc.co.uk/news" "www.bbc.co.uk" "co.uk"
                  eq_refl ltac:(compute_done) eq_refl)).
Defined.

Lemma extractDomain_fallback_witness :
  extractDomain SampleURL.hostname "https://blog.example.com"
  = Some "example.com"
  ∧ extractDomain SampleURL.hostname "http://localhost:3000/"
    = Some "localhost".
Proof.
  split.
  - apply (proj1 (extractDomain_fallback SampleURL.hostname
                    "https://blog.example.com" "blog.example.com" eq_refl)).
    unfold MULTI_PART_TLDS. repeat constructor.
  - apply (proj2 (extractDomain_fallback SampleURL.hostname
                    "http://localhost:3000/" "localhost" eq_refl)).
    vm_compute. lia.
Defined.

Lemma extractDomain_org_il_collapses_witness :
  extractDomain SampleURL.hostname "https://example.org.il/page"
  = Some "org.il".
Proof.
  apply (extractDomain_org_il_collapses SampleURL.hostname
           "https://example.org.il/page" eq_refl).
Defined.

(* ------------------------------------------------------------------------- *)
(** ** Substrings, searching, digits *)
(* ------------------------------------------------------------------------- *)

Module SearchFacts.
Import JS JSFacts.

Lemma append_nil_r (s : string) : s +:+ EmptyString = s.
Proof. induction s as [|a s IH]; [done|]. by rewrite append_cons, IH. Qed.

Lemma prefix_inv needle s :
  String.prefix needle s = true ↔ ∃ q, s = needle +:+ q.
Proof.
  revert s. induction needle as [|a n IH]; intros s.
  - split; [intros _; by exists s | by destruct s].
  - destruct s as [|b s]; simpl.
    + split; [done | by intros [q Hq]].
    + destruct (ascii_dec a b) as [->|Hne].
      * rewrite IH. split; intros [q Hq]; exists q.
        -- by rewrite append_cons, <- Hq.
        -- rewrite append_cons in Hq. by simplify_eq.
      * split; [done|]. intros [q Hq]. rewrite append_cons in Hq.
        by simplify_eq.
Qed.

Lemma includes_unfold s needle :
  includes s needle
  = String.prefix needle s
    || match s with EmptyString => false | String _ s' => includes s' needle end.
Proof. by destruct s. Qed.

(** [includes] is the substring relation. *)
Lemma includes_spec s needle :
  includes s needle = true ↔ isSubstring needle s.
Proof.
  split.
  - induction s as [|a s IH]; rewrite includes_unfold;
      intros [Hp|Ht]%orb_prop; try done.
    + apply prefix_inv in Hp as [q ->]. by exists EmptyString, q.
    + apply prefix_inv in Hp as [q ->]. by exists EmptyString, q.
    + destruct (IH Ht) as (p & q & ->). by exists (String a p), q.
  - intros (p & q & ->). induction p as [|a p IH]; rewrite includes_unfold.
    + apply orb_true_intro. left. apply prefix_inv. by exists q.
    + apply orb_true_intro. right. by rewrite append_cons.
Qed.

Lemma isSubstring_refl s : isSubstring s s.
Proof. exists EmptyString, EmptyString. by rewrite append_nil, append_nil_r. Qed.

(** The predicate of [find] says no more than "contains": its test for
    equality is covered by the test for inclusion. *)
Lemma matchesInput_spec lower g :
  matchesInput lower g = true ↔ isSubstring lower g.1.
Proof.
  unfold matchesInput. rewrite orb_true_iff, includes_spec, String.eqb_eq.
  split; [|by right].
  intros [->|H]; [apply isSubstring_refl | done].
Qed.

(** [find] returns the first element that passes the test. *)
Lemma find_first {A} (P : A → bool) (l : list A) (x : A) :
  List.find P l = Some x ↔
  ∃ pre post, l = pre ++ x :: post ∧ P x = true
              ∧ Forall (λ y, P y = false) pre.
Proof.
  induction l as [|y l IH]; simpl.
  - split; [done|]. intros (pre & post & Hl & _). by destruct pre.
  - destruct (P y) eqn:E.
    + split.
      * intros [= ->]. by exists [], l.
      * intros (pre & post & Hl & Hx & Hpre).
        destruct pre as [|z pre]; simplify_eq/=; [done|].
        inversion Hpre; congruence.
    + rewrite IH. split.
      * intros (pre & post & -> & Hx & Hpre).
        exists (y :: pre), post. by repeat split; [|constructor].
      * intros (pre & post & Hl & Hx & Hpre).
        destruct pre as [|z pre]; simplify_eq/=; [congruence|].
        exists pre, post. inversion Hpre; by subst.
Qed.

Lemma digits_all s : ∀ a,
  forallb isDigit (list_ascii_of_string s) = true →
  digits s (Some a)
  = Some (foldl (λ acc c, 10 * acc + default 0 (digit_of c)) a
                (list_ascii_of_string s)).
Proof.
  induction s as [|c s IH]; intros a; simpl; [done|].
  unfold isDigit at 1. intros [Hc Hs]%andb_prop.
  destruct (digit_of c) as [d|]; [|done]. simpl. by apply IH.
Qed.

(** On a string that denotes a positive integer, [parseInt] reads
    exactly that integer. *)
Lemma parseInt_denoted s :
  denotesPositiveInteger s = true →
  parseInt s = Some (decimalValue s) ∧ 0 < decimalValue s.
Proof.
  unfold denotesPositiveInteger.
  intros [[Hne Hall]%andb_prop Hpos]%andb_prop.
  split; [|by apply Z.ltb_lt].
  destruct s as [|c s]; [done|]. simpl in Hall.
  apply andb_prop in Hall as [Hc Hs].
  unfold parseInt, decimalValue. simpl.
  assert (is_space c = false ∧ c ≠ "-"%char ∧ c ≠ "+"%char
          ∧ ∃ d, digit_of c = Some d) as (Hsp & Hm & Hp & d & Hd).
  { unfold isDigit in Hc. destruct (digit_of c) as [d|] eqn:Hd; [|done].
    unfold digit_of in Hd. unfold is_space.
    destruct (_ && _)%bool eqn:Hr in Hd; [|done].
    apply andb_prop in Hr as [H1%Nat.leb_le H2%Nat.leb_le].
    repeat split; [| | |by eexists].
    - apply orb_false_intro; [apply andb_false_intro2|];
        [apply Nat.leb_gt | apply Nat.eqb_neq]; lia.
    - intros ->. change (nat_of_ascii "-") with 45%nat in *. lia.
    - intros ->. change (nat_of_ascii "+") with 43%nat in *. lia. }
  rewrite Hsp.
  assert (digits (String c s) None
          = Some (foldl (λ acc c0, 10 * acc + default 0 (digit_of c0))
                        (10 * 0 + default 0 (digit_of c))
                        (list_ascii_of_string s))) as Hdig.
  { simpl. rewrite Hd. simpl. by rewrite digits_all. }
  destruct c as [[] [] [] [] [] [] [] []]; try done.
Qed.

End SearchFacts.

(* ------------------------------------------------------------------------- *)
(** ** The displayed list and reference resolution *)
(* ------------------------------------------------------------------------- *)

Section ResolutionFacts.
Import JS JSFacts SearchFacts.

Lemma insertByCount_perm x l : insertByCount x l ≡ₚ x :: l.
Proof.
  induction l as [|y l IH]; simpl; [done|].
  destruct (count y <=? count x)%nat; [done|].
  rewrite IH. apply Permutation_swap.
Qed.

Lemma sortByCount_perm l : sortByCount l ≡ₚ l.
Proof.
  induction l as [|x l IH]; simpl; [done|].
  by rewrite insertByCount_perm, IH.
Qed.

(** The displayed list holds exactly the groups that reach the
    threshold. *)
Lemma getSortedDomains_elem groups threshold g :
  g ∈ getSortedDomains groups threshold
  ↔ g ∈ groups ∧ threshold ≤ Z.of_nat (count g).
Proof.
  unfold getSortedDomains. rewrite sortByCount_perm, list_elem_of_filter.
  tauto.
Qed.

(** Whatever [resolveDomain] returns is the name of a row of the list
    it was given. *)
Lemma resolveDomain_elem input sorted d :
  resolveDomain input sorted = Some d → ∃ es, (d, es) ∈ sorted.
Proof.
  unfold resolveDomain.
  destruct (isListNumber _ _).
  - destruct (sorted !! _) as [[d' es]|] eqn:E; [|done].
    intros [= <-]. exists es. by eapply list_elem_of_lookup_2.
  - destruct (List.find _ sorted) as [[d' es]|] eqn:E; [|done].
    simpl. destruct (String.eqb d' EmptyString); [done|].
    intros [= <-]. exists es.
    apply find_some in E as [Hin _]. by apply list_elem_of_In.
Qed.

Lemma Map_get_elem (groups : Groups) d es :
  NoDup (Map_keys groups) → (d, es) ∈ groups → Map_get d groups = Some es.
Proof.
  unfold Map_keys.
  induction groups as [|[k v] groups IH]; intros Hnd Hin.
  - by apply elem_of_nil in Hin.
  - simpl in *. apply NoDup_cons in Hnd as [Hk Hnd].
    destruct (String.eqb_spec k d) as [->|Hne].
    + apply elem_of_cons in Hin as [[= ->]|Hin]; [done|].
      destruct Hk. apply list_elem_of_fmap. by exists (d, es).
    + apply elem_of_cons in Hin as [[= -> ->]|Hin]; [done | by apply IH].
Qed.

(** What the single [find] pass does.  When the input is not a list
    number, the result is the first domain of the list, in its order,
    that contains the lowercased input; a domain equal to the input is one
    of those.  Nothing is returned when no domain contains it. *)
Lemma resolveDomain_first_containing input (sorted : Groups) :
  isListNumber (parseInt input) (length sorted) = false →
  (∀ d, resolveDomain input sorted = Some d ↔
     d ≠ EmptyString ∧
     ∃ pre es post, sorted = pre ++ (d, es) :: post
       ∧ isSubstring (toLowerCase input) d
       ∧ Forall (λ g, ¬ isSubstring (toLowerCase input) g.1) pre)
  ∧ (Forall (λ g, ¬ isSubstring (toLowerCase input) g.1) sorted →
     resolveDomain input sorted = None).
Proof.
  intros Hnum. unfold resolveDomain. rewrite Hnum.
  assert (∀ pre : Groups,
            Forall (λ g, matchesInput (toLowerCase input) g = false) pre
            ↔ Forall (λ g, ¬ isSubstring (toLowerCase input) g.1) pre)
    as Hpre.
  { intros pre. apply Forall_proper; [|done]. intros g.
    rewrite <- matchesInput_spec. by destruct (matchesInput _ g). }
  split.
  - intros d.
    destruct (List.find _ sorted) as [[d' es']|] eqn:E; simpl.
    + pose proof E as (pre & post & Hl & Hm & Hno)%find_first. split.
      * destruct (String.eqb_spec d' EmptyString) as [->|Hne]; [done|].
        intros [= <-]. split; [done|]. exists pre, es', post.
        split; [done|]. split; [by apply matchesInput_spec in Hm|].
        by apply Hpre.
      * intros (Hne & pre' & es & post' & Hl' & Hsub & Hno').
        assert (List.find (matchesInput (toLowerCase input)) sorted
                = Some (d, es)) as E'.
        { apply find_first. exists pre', post'. split; [done|].
          split; [by apply matchesInput_spec | by apply Hpre]. }
        rewrite E in E'. injection E' as -> ->.
        by destruct (String.eqb_spec d EmptyString).
    + split; [done|].
      intros (Hne & pre' & es & post' & Hl' & Hsub & Hno').
      assert (List.find (matchesInput (toLowerCase input)) sorted
              = Some (d, es)) as E'; [|congruence].
      apply find_first. exists pre', post'. split; [done|].
      split; [by apply matchesInput_spec | by apply Hpre].
  - intros Hno%Hpre.
    destruct (List.find _ sorted) as [g|] eqn:E; [|done].
    apply find_some in E as [Hin%list_elem_of_In Hm].
    rewrite Forall_forall in Hno. specialize (Hno _ Hin). congruence.
Qed.

(** C7, as the code has it.  A domain whose count is below the
    threshold is not in the list that [resolveDomain] searches, so no
    argument of show or delete reaches it: no number, no name, no
    substring; a delete command leaves it unmarked. *)
Theorem hidden_domain_not_resolved (groups : Groups) d es st :
  NoDup (Map_keys groups) →
  Map_get d groups = Some es →
  Z.of_nat (length es) < threshold st →
  (∀ input,
     resolveDomain input (getSortedDomains groups (threshold st)) ≠ Some d)
  ∧ (∀ arg, d ∉ markedForDeletion st →
       d ∉ markedForDeletion
             (stateAfter (deleteCmd groups arg st) st)).
Proof.
  intros Hnd Hget Hlt.
  assert (∀ input,
    resolveDomain input (getSortedDomains groups (threshold st)) ≠ Some d)
    as Hres.
  { intros input [es' Hin]%resolveDomain_elem.
    apply getSortedDomains_elem in Hin as [Hin Hcount].
    apply (Map_get_elem _ _ _ Hnd) in Hin.
    unfold count in Hcount. simpl in Hcount. simplify_eq. lia. }
  split; [done|].
  intros arg Hnot. unfold deleteCmd, stateAfter.
  destruct (resolveDomain arg _) as [d'|] eqn:E; simpl; [|done].
  destruct (negb _); simpl; [|done].
  intros [->%elem_of_singleton|Hin]%elem_of_union; [|done].
  by apply (Hres arg).
Qed.

(** C4.  The exact match does not win.  The test [d === lower] shares
    its [find] pass with [d.includes(lower)], so when the list holds a
    domain equal to the lowercased input and, before it, another domain
    that merely contains the input, the earlier one is returned and the
    exact match is not. *)
Theorem resolveDomain_exact_match_shadowed input (sorted : Groups)
    pre d es post :
  isListNumber (parseInt input) (length sorted) = false →
  sorted = pre ++ (d, es) :: post →
  Forall (λ g, ¬ isSubstring (toLowerCase input) g.1) pre →
  isSubstring (toLowerCase input) d →
  d ≠ EmptyString →
  d ≠ toLowerCase input →
  toLowerCase input ∈ Map_keys post →
  resolveDomain input sorted = Some d
  ∧ toLowerCase input ∈ Map_keys sorted
  ∧ resolveDomain input sorted ≠ Some (toLowerCase input).
Proof.
  intros Hnum Hsorted Hpre Hsub Hd Hne Hexact.
  assert (resolveDomain input sorted = Some d) as Hres.
  { apply (proj1 (resolveDomain_first_containing input sorted Hnum) d).
    split; [done|]. by exists pre, es, post. }
  split; [done|]. split.
  - rewrite Hsorted. unfold Map_keys in *. rewrite fmap_app, fmap_cons.
    apply elem_of_app. right. by right.
  - rewrite Hres. by intros [= ->].
Qed.

End ResolutionFacts.

(** The claim of C4 taken as a statement about the code is false:
    "github.com" is in the list and equals the input, yet "mygithub.com",
    which stands before it and contains it, is returned. *)
Lemma resolveDomain_exact_match_loses :
  ¬ (∀ input (sorted : Groups) d,
       isListNumber (JS.parseInt input) (length sorted) = false →
       d ∈ Map_keys sorted → d = JS.toLowerCase input →
       resolveDomain input sorted = Some d).
Proof.
  intros H.
  specialize (H "github.com" (getSortedDomains exampleGroups 1) "github.com"
                eq_refl ltac:(compute_done) eq_refl).
  vm_compute in H. discriminate.
Qed.

(** [delete github.com] marks mygithub.com and leaves github.com
    unmarked. *)
Lemma resolveDomain_exact_match_shadowed_witness :
  resolveDomain "github.com" (getSortedDomains exampleGroups 1)
  = Some "mygithub.com"
  ∧ "mygithub.com" ∈ markedForDeletion
      (stateAfter (execCommand exampleTabs exampleGroups "tabs.txt"
                               "delete github.com" (mkState 1 ∅))
                  (mkState 1 ∅))
  ∧ "github.com" ∉ markedForDeletion
      (stateAfter (execCommand exampleTabs exampleGroups "tabs.txt"
                               "delete github.com" (mkState 1 ∅))
                  (mkState 1 ∅)).
Proof.
  split; [|split; compute_done].
  refine (proj1 (resolveDomain_exact_match_shadowed
                   "github.com" (getSortedDomains exampleGroups 1)
                   [] "mygithub.com"
                   (default [] (Map_get "mygithub.com" exampleGroups))
                   [("github.com",
                     default [] (Map_get "github.com" exampleGroups));
                    ("b.org", default [] (Map_get "b.org" exampleGroups))]
                   eq_refl eq_refl _ _ _ _ _)).
  - constructor.
  - exists "my", EmptyString. reflexivity.
  - discriminate.
  - discriminate.
  - compute_done.
Defined.

Lemma resolveDomain_first_containing_witness :
  resolveDomain "hub" (getSortedDomains exampleGroups 1) = Some "mygithub.com".
Proof.
  apply (proj1 (resolveDomain_first_containing
                  "hub" (getSortedDomains exampleGroups 1) eq_refl)).
  split; [done|].
  exists [], (default [] (Map_get "mygithub.com" exampleGroups)),
    [("github.com", default [] (Map_get "github.com" exampleGroups));
     ("b.org", default [] (Map_get "b.org" exampleGroups))].
  split; [reflexivity|]. split; [|constructor].
  exists "mygit", ".com". reflexivity.
Defined.

(** C7 fails as stated: b.org has one tab, the threshold is 2, and its
    exact name resolves to nothing. *)
Lemma hidden_domain_by_name_fails :
  ¬ (∀ (groups : Groups) threshold d es,
       Map_get d groups = Some es → Z.of_nat (length es) < threshold →
       resolveDomain d (getSortedDomains groups threshold) = Some d).
Proof.
  intros H.
  specialize (H exampleGroups 2 "b.org"
                (default [] (Map_get "b.org" exampleGroups))
                eq_refl ltac:(vm_compute; reflexivity)).
  vm_compute in H. discriminate.
Qed.

Lemma hidden_domain_not_resolved_witness :
  resolveDomain "b.org" (getSortedDomains exampleGroups 2) ≠ Some "b.org".
Proof.
  apply (proj1 (hidden_domain_not_resolved exampleGroups "b.org"
                  (default [] (Map_get "b.org" exampleGroups))
                  (mkState 2 ∅)
                  ltac:(compute_done) eq_refl
                  ltac:(vm_compute; reflexivity))).
Defined.

(* ------------------------------------------------------------------------- *)
(** ** The commands *)
(* ------------------------------------------------------------------------- *)

Section CommandFacts.
Import JS JSFacts SearchFacts.

Variable entries : list Entry.
Variable groups : Groups.
Variable inputFile : string.

Local Abbreviation exec := (execCommand entries groups inputFile).

(** The [switch] sends each command word to its case. *)
Lemma exec_delete input st :
  commandOf input = "delete" ∨ commandOf input = "d" →
  exec input st = deleteCmd groups (argOf input) st.
Proof. unfold execCommand. by intros [-> | ->]. Qed.

Lemma exec_undo input st :
  commandOf input = "undo" ∨ commandOf input = "u" →
  exec input st = undoCmd groups (argOf input) st.
Proof. unfold execCommand. by intros [-> | ->]. Qed.

Lemma exec_save input st :
  commandOf input = "save" →
  exec input st = saveCmd entries inputFile (argOf input) st.
Proof. unfold execCommand. by intros ->. Qed.

Lemma exec_threshold input st :
  commandOf input = "threshold" ∨ commandOf input = "t" →
  exec input st = thresholdCmd (argOf input) st.
Proof. unfold execCommand. by intros [-> | ->]. Qed.

Lemma size_zero (X : gset string) : size X = 0%nat ↔ X = ∅.
Proof.
  split; [|intros ->; apply size_empty].
  intros H%size_empty_iff. by apply leibniz_equiv.
Qed.

(** The four ways through the save case. *)
Lemma saveCmd_events arg st :
  (saveCmd entries inputFile arg st).1 = Continue st
  ∧ (arg = EmptyString →
     (saveCmd entries inputFile arg st).2
     = [Log (RED +:+ "Please provide filename" +:+ RESET); pressEnter])
  ∧ (arg ≠ EmptyString → markedForDeletion st = ∅ →
     (saveCmd entries inputFile arg st).2
     = [Log (YELLOW +:+ "No domains marked for deletion" +:+ RESET);
        pressEnter])
  ∧ (arg ≠ EmptyString → markedForDeletion st ≠ ∅ → arg = inputFile →
     (saveCmd entries inputFile arg st).2
     = [Log (RED +:+ "Cannot overwrite input file" +:+ RESET); pressEnter])
  ∧ (arg ≠ EmptyString → markedForDeletion st ≠ ∅ → arg ≠ inputFile →
     filesWritten (saveCmd entries inputFile arg st).2 = [arg]).
Proof.
  unfold saveCmd. cbn [fst snd].
  destruct (String.eqb_spec arg EmptyString) as [He|He];
    [by repeat split|].
  destruct (bool_decide_reflect (size (markedForDeletion st) = 0%nat))
    as [Hsz|Hsz]; rewrite size_zero in Hsz; [by repeat split|].
  destruct (String.eqb_spec arg inputFile) as [Hf|Hf]; by repeat split.
Qed.

(** C6. A save whose target is the input file writes nothing, marks or
    no marks.  The three guards come in the order: file name given, some
    domain marked, target different from the input file; each failure
    is one line on the console and no write; the state is never
    touched. *)
Theorem save_guards input st :
  commandOf input = "save" →
  (exec input st).1 = Continue st
  ∧ (argOf input = inputFile → filesWritten (exec input st).2 = [])
  ∧ (argOf input = EmptyString →
     (exec input st).2
     = [Log (RED +:+ "Please provide filename" +:+ RESET); pressEnter])
  ∧ (argOf input ≠ EmptyString → markedForDeletion st = ∅ →
     (exec input st).2
     = [Log (YELLOW +:+ "No domains marked for deletion" +:+ RESET);
        pressEnter])
  ∧ (argOf input ≠ EmptyString → markedForDeletion st ≠ ∅ →
     argOf input = inputFile →
     (exec input st).2
     = [Log (RED +:+ "Cannot overwrite input file" +:+ RESET); pressEnter]).
Proof.
  intros Hcmd. rewrite (exec_save _ _ Hcmd).
  destruct (saveCmd_events (argOf input) st) as (H1 & H2 & H3 & H4 & _).
  repeat split; try done.
  intros Hf.
  destruct (decide (argOf input = EmptyString)) as [He|He];
    [by rewrite H2|].
  destruct (decide (markedForDeletion st = ∅)) as [Hm|Hm];
    [by rewrite H3|]. by rewrite H4.
Qed.

(** C5. There is no "def" alias in the save case: the argument is the
    file name as typed, so [save def] writes a file called "def". *)
Theorem save_def_is_literal st :
  markedForDeletion st ≠ ∅ → inputFile ≠ "def" →
  filesWritten (exec "save def" st).2 = ["def"].
Proof.
  intros Hm Hf. rewrite (exec_save "save def" st eq_refl).
  destruct (saveCmd_events "def" st) as (_ & _ & _ & _ & H).
  apply H; [done | done | by intros <-].
Qed.

Lemma thresholdCmd_parse arg st :
  (∀ n, parseInt arg = Some n → 0 < n →
     thresholdCmd arg st
     = (Continue (mkState n (markedForDeletion st)), []))
  ∧ ((∀ n, parseInt arg = Some n → n ≤ 0) →
     thresholdCmd arg st = (Continue st, [])).
Proof.
  unfold thresholdCmd. split.
  - intros n -> Hn. by rewrite (proj2 (Z.ltb_lt 0 n) Hn).
  - intros Hn. destruct (parseInt arg) as [n|]; [|done].
    specialize (Hn n eq_refl).
    by rewrite (proj2 (Z.ltb_ge 0 n) Hn).
Qed.

(** C8, as the code has it.  The threshold command goes by what
    [parseInt] reads at the front of the argument, whatever follows the
    digits.  A reading that is absent, zero or negative leaves the state
    as it was.  A positive reading puts a positive number in the
    threshold, the reading itself when it is no larger than [maxSafe],
    and leaves the marks alone.  An argument that denotes a positive
    integer no larger than [maxSafe] sets the threshold to that
    integer. *)
Theorem threshold_follows_parseInt input st :
  commandOf input = "threshold" ∨ commandOf input = "t" →
  ((∀ n, parseInt (argOf input) = Some n → n ≤ 0) →
     exec input st = (Continue st, []))
  ∧ (∀ n, parseInt (argOf input) = Some n → 0 < n →
       ∃ st', exec input st = (Continue st', [])
              ∧ markedForDeletion st' = markedForDeletion st
              ∧ 0 < threshold st'
              ∧ (n ≤ maxSafe → threshold st' = n))
  ∧ (denotesPositiveInteger (argOf input) = true →
     decimalValue (argOf input) ≤ maxSafe →
     exec input st
     = (Continue (mkState (decimalValue (argOf input))
                          (markedForDeletion st)), [])).
Proof.
  intros Hcmd. rewrite (exec_threshold _ _ Hcmd).
  destruct (thresholdCmd_parse (argOf input) st) as [Hpos Hnon].
  split; [done|]. split.
  - intros n Hn Hlt. eexists. split; [by apply Hpos|]. by simpl.
  - intros [Hp Hv]%parseInt_denoted _. by apply Hpos.
Qed.

(** What the delete case leaves behind: the resolved domain joins the
    marks when there is one. *)
Lemma deleteCmd_state arg st :
  let r := resolveDomain arg (getSortedDomains groups (threshold st)) in
  stateAfter (deleteCmd groups arg st) st
  = if truthy r
    then mkState (threshold st) ({[ default EmptyString r ]} ∪ markedForDeletion st)
    else st.
Proof. unfold deleteCmd, stateAfter. simpl. by destruct (truthy _). Qed.

(** C9. Marking a domain that is already marked changes nothing: a second
    delete command that resolves to the same domain as the first (the same
    line again, or another reference to it) gives back the state the first
    one left.  An undo aimed at a domain that is not marked says so and
    changes nothing. *)
Theorem delete_idempotent_undo_noop st :
  (∀ input d,
     commandOf input = "delete" ∨ commandOf input = "d" →
     resolveDomain (argOf input) (getSortedDomains groups (threshold st))
     = Some d →
     d ≠ EmptyString →
     stateAfter (exec input st) st
     = mkState (threshold st) ({[ d ]} ∪ markedForDeletion st))
  ∧ (∀ input1 input2,
     commandOf input1 = "delete" ∨ commandOf input1 = "d" →
     commandOf input2 = "delete" ∨ commandOf input2 = "d" →
     resolveDomain (argOf input1) (getSortedDomains groups (threshold st))
     = resolveDomain (argOf input2) (getSortedDomains groups (threshold st)) →
     stateAfter (exec input2 (stateAfter (exec input1 st) st))
                (stateAfter (exec input1 st) st)
     = stateAfter (exec input1 st) st)
  ∧ (∀ input,
     commandOf input = "undo" ∨ commandOf input = "u" →
     undoTarget groups (argOf input) st ∉ markedForDeletion st →
     exec input st
     = (Continue st,
        [Log (RED +:+ "Domain not in deletion list" +:+ RESET);
         pressEnter])).
Proof.
  split; [|split].
  - intros input d Hcmd Hres Hd.
    rewrite (exec_delete _ _ Hcmd), deleteCmd_state. cbv zeta.
    rewrite Hres. simpl. by destruct (String.eqb_spec d EmptyString).
  - intros input1 input2 Hcmd1 Hcmd2 Hsame.
    rewrite (exec_delete _ _ Hcmd1), (exec_delete _ _ Hcmd2).
    rewrite (deleteCmd_state (argOf input1) st). cbv zeta.
    destruct (truthy (resolveDomain (argOf input1) _)) eqn:E;
      rewrite deleteCmd_state; cbv zeta; simpl; rewrite <- Hsame, E; [|done].
    f_equal. apply set_eq. intros x. rewrite !elem_of_union. tauto.
  - intros input Hcmd Hnot. rewrite (exec_undo _ _ Hcmd).
    unfold undoCmd. by rewrite bool_decide_eq_false_2.
Qed.

(** One turn of the loop adds at most the name of a group. *)
Lemma exec_marks input st st' evs :
  exec input st = (Continue st', evs) →
  ∀ d, d ∈ markedForDeletion st' →
       d ∈ markedForDeletion st ∨ d ∈ Map_keys groups.
Proof.
  unfold execCommand.
  repeat (match goal with
          | |- context [if ?b then _ else _] => destruct b
          end).
  - unfold showCmd. intros [= <- _]. by left.
  - unfold deleteCmd.
    destruct (resolveDomain _ _) as [d'|] eqn:E; simpl;
      [destruct (negb _)|]; intros [= <- _]; simpl; try by left.
    intros d [->%elem_of_singleton|Hin]%elem_of_union; [right | by left].
    apply resolveDomain_elem in E as [es Hin].
    apply getSortedDomains_elem in Hin as [Hin _].
    apply list_elem_of_fmap. by exists (d', es).
  - unfold undoCmd. case_bool_decide; intros [= <- _]; simpl; [|by left].
    intros d [Hin _]%elem_of_difference. by left.
  - unfold saveCmd. intros [= <- _]. by left.
  - unfold thresholdCmd.
    destruct (parseInt _) as [n|]; [destruct (0 <? n)|];
      intros [= <- _]; by left.
  - done.
  - intros [= <- _]. by left.
Qed.

End CommandFacts.

(* ------------------------------------------------------------------------- *)
(** ** The grouping index *)
(* ------------------------------------------------------------------------- *)

Section GroupingFacts.

Lemma Map_set_keys k v (m : Groups) x :
  x ∈ Map_keys (Map_set k v m) ↔ x = k ∨ x ∈ Map_keys m.
Proof.
  unfold Map_keys. induction m as [|[k' v'] m IH]; simpl.
  - rewrite list_elem_of_singleton, elem_of_nil. tauto.
  - destruct (String.eqb_spec k' k) as [->|Hne]; simpl.
    + rewrite elem_of_cons. tauto.
    + rewrite !elem_of_cons, IH. tauto.
Qed.

Lemma Map_set_NoDup k v (m : Groups) :
  NoDup (Map_keys m) → NoDup (Map_keys (Map_set k v m)).
Proof.
  induction m as [|[k' v'] m IH]; simpl.
  - intros _. apply NoDup_singleton.
  - intros [Hk Hm]%NoDup_cons.
    destruct (String.eqb_spec k' k) as [->|Hne]; simpl.
    + by apply NoDup_cons.
    + apply NoDup_cons. split; [|by apply IH].
      change (k' ∉ Map_keys (Map_set k v m)).
      rewrite Map_set_keys. intros [?|?]; by simplify_eq.
Qed.

Local Abbreviation step :=
  (λ (groups : Groups) (entry : Entry),
     Map_set (domain entry)
             (default [] (Map_get (domain entry) groups) ++ [entry]) groups).

Lemma groupByDomain_acc (entries : list Entry) : ∀ acc : Groups,
  (NoDup (Map_keys acc) → NoDup (Map_keys (foldl step acc entries)))
  ∧ ∀ d, d ∈ Map_keys (foldl step acc entries)
         ↔ d ∈ Map_keys acc ∨ d ∈ domain <$> entries.
Proof.
  induction entries as [|e entries IH]; intros acc; simpl.
  - split; [done|]. intros d. rewrite elem_of_nil. tauto.
  - destruct (IH (step acc e)) as [Hnd Hkeys]. split.
    + intros H. by apply Hnd, Map_set_NoDup.
    + intros d. rewrite Hkeys, Map_set_keys, elem_of_cons. tauto.
Qed.

(** The keys of the index are the domains of the entries, each once. *)
Lemma groupByDomain_keys entries d :
  d ∈ Map_keys (groupByDomain entries) ↔ ∃ e, e ∈ entries ∧ domain e = d.
Proof.
  unfold groupByDomain.
  rewrite (proj2 (groupByDomain_acc entries [])), list_elem_of_fmap.
  unfold Map_keys at 1. simpl. rewrite elem_of_nil. split.
  - intros [[]|(e & -> & He)]. by exists e.
  - intros (e & He & <-). right. by exists e.
Qed.

Lemma groupByDomain_NoDup entries : NoDup (Map_keys (groupByDomain entries)).
Proof. apply (groupByDomain_acc entries []). apply NoDup_nil_2. Qed.

End GroupingFacts.

(* ------------------------------------------------------------------------- *)
(** ** The loop *)
(* ------------------------------------------------------------------------- *)

Section LoopFacts.

Variable entries : list Entry.
Variable groups : Groups.
Variable inputFile : string.
Variable initialThreshold : Z.

Local Abbreviation reach := (reachable entries groups inputFile initialThreshold).

Lemma reachable_marks st :
  reach st → ∀ d, d ∈ markedForDeletion st → d ∈ Map_keys groups.
Proof.
  induction 1 as [|st input st' evs _ IH Hexec]; intros d Hd.
  - by apply not_elem_of_empty in Hd.
  - destruct (exec_marks _ _ _ _ _ _ _ Hexec d Hd); [by apply IH | done].
Qed.

(** The loop only ever passes through reachable states, whether or not
    a line is swallowed by "Press Enter". *)
Lemma runLoop_reachable stdin : ∀ st,
  reach st →
  reach (runLoop entries groups inputFile stdin st).1
  ∧ reach (runLoop entries groups inputFile (tail stdin) st).1.
Proof.
  induction stdin as [|line rest IH]; intros st Hst; [done|].
  split; [|by apply IH]. simpl.
  destruct (execCommand _ _ _ _ st) as [[st'|] evs] eqn:E; [|done].
  assert (reach st') as Hst' by (by eapply reachable_turn).
  destruct (IH st' Hst') as [H1 H2].
  destruct (awaitsEnter evs).
  - destruct rest as [|ack rest']; simpl in *; [done|].
    by destruct (runLoop _ _ _ rest' st').
  - by destruct (runLoop _ _ _ rest st').
Qed.

(** C10. At every turn of the session each marked domain is a key of
    the grouping index, hence the domain of some parsed entry when the
    index was built from the entries. *)
Theorem marks_are_group_keys :
  (∀ st, reach st →
     ∀ d, d ∈ markedForDeletion st → d ∈ Map_keys groups)
  ∧ (∀ stdin d,
       d ∈ markedForDeletion
             (runInteractive entries groups inputFile initialThreshold
                             stdin).1 →
       d ∈ Map_keys groups)
  ∧ (groups = groupByDomain entries →
     ∀ st, reach st →
       ∀ d, d ∈ markedForDeletion st → ∃ e, e ∈ entries ∧ domain e = d).
Proof.
  split; [apply reachable_marks|]. split.
  - intros stdin d. apply reachable_marks.
    apply runLoop_reachable. constructor.
  - intros Hg st Hst d Hd. apply groupByDomain_keys. rewrite <- Hg.
    by apply (reachable_marks st).
Qed.

End LoopFacts.

(* ------------------------------------------------------------------------- *)
(** ** The theorems at work on the example export *)
(* ------------------------------------------------------------------------- *)

Lemma save_guards_witness :
  filesWritten (execCommand exampleTabs exampleGroups "tabs.txt"
                            "save tabs.txt" (mkState 1 {[ "b.org" ]})).2 = [].
Proof.
  apply (proj1 (proj2 (save_guards exampleTabs exampleGroups "tabs.txt"
                         "save tabs.txt" (mkState 1 {[ "b.org" ]}) eq_refl))).
  reflexivity.
Defined.

(** Even when the input file is the default name of the documentation,
    [save def] is not refused and writes "def". *)
Lemma save_def_is_literal_witness :
  filesWritten (execCommand exampleTabs exampleGroups "cleaned.txt"
                            "save def" (mkState 1 {[ "b.org" ]})).2 = ["def"].
Proof.
  apply (save_def_is_literal exampleTabs exampleGroups "cleaned.txt"
           (mkState 1 {[ "b.org" ]})).
  - simpl. apply non_empty_singleton_L.
  - discriminate.
Defined.

(** C8 fails as stated: "5abc" does not denote a positive integer, and
    [threshold 5abc] moves the threshold from 3 to 5. *)
Lemma threshold_trailing_text_updates :
  ¬ (∀ input st,
       commandOf input = "threshold" ∨ commandOf input = "t" →
       denotesPositiveInteger (argOf input) = false →
       stateAfter (execCommand exampleTabs exampleGroups "tabs.txt" input st)
                  st = st).
Proof.
  intros H.
  specialize (H "threshold 5abc" (mkState 3 ∅) (or_introl eq_refl) eq_refl).
  apply (f_equal threshold) in H. vm_compute in H. discriminate.
Qed.

Lemma threshold_follows_parseInt_witness :
  ∃ st', execCommand exampleTabs exampleGroups "tabs.txt" "t 5abc"
                     (mkState 3 ∅)
         = (Continue st', [])
         ∧ markedForDeletion st' = markedForDeletion (mkState 3 ∅)
         ∧ 0 < threshold st'
         ∧ (5 ≤ maxSafe → threshold st' = 5).
Proof.
  apply (proj1 (proj2 (threshold_follows_parseInt exampleTabs exampleGroups
                         "tabs.txt" "t 5abc" (mkState 3 ∅)
                         (or_intror eq_refl)))
               5 eq_refl).
  lia.
Defined.

Lemma delete_idempotent_undo_noop_witness :
  stateAfter
    (execCommand exampleTabs exampleGroups "tabs.txt" "delete 1"
                 (mkState 1 {[ "mygithub.com" ]}))
    (mkState 1 {[ "mygithub.com" ]})
  = mkState 1 ({[ "mygithub.com" ]} ∪ {[ "mygithub.com" ]})
  ∧ stateAfter
      (execCommand exampleTabs exampleGroups "tabs.txt" "d mygit"
         (stateAfter (execCommand exampleTabs exampleGroups "tabs.txt"
                                  "delete 1" (mkState 1 ∅))
                     (mkState 1 ∅)))
      (stateAfter (execCommand exampleTabs exampleGroups "tabs.txt"
                               "delete 1" (mkState 1 ∅))
                  (mkState 1 ∅))
    = stateAfter (execCommand exampleTabs exampleGroups "tabs.txt"
                              "delete 1" (mkState 1 ∅))
                 (mkState 1 ∅)
  ∧ execCommand exampleTabs exampleGroups "tabs.txt" "undo b.org"
                (mkState 1 {[ "github.com" ]})
    = (Continue (mkState 1 {[ "github.com" ]}),
       [Log (RED +:+ "Domain not in deletion list" +:+ RESET); pressEnter]).
Proof.
  split; [|split].
  - exact (proj1 (delete_idempotent_undo_noop exampleTabs exampleGroups
                    "tabs.txt" (mkState 1 {[ "mygithub.com" ]}))
                 "delete 1" "mygithub.com" (or_introl eq_refl) eq_refl
                 ltac:(discriminate)).
  - apply (proj1 (proj2 (delete_idempotent_undo_noop exampleTabs
                           exampleGroups "tabs.txt" (mkState 1 ∅)))
                 "delete 1" "d mygit" (or_introl eq_refl) (or_intror eq_refl)
                 eq_refl).
  - apply (proj2 (proj2 (delete_idempotent_undo_noop exampleTabs
                           exampleGroups "tabs.txt"
                           (mkState 1 {[ "github.com" ]})))
                 "undo b.org" (or_introl eq_refl)).
    compute_done.
Defined.

Lemma marks_are_group_keys_witness :
  "mygithub.com" ∈ Map_keys exampleGroups.
Proof.
  apply (proj1 (proj2 (marks_are_group_keys exampleTabs exampleGroups
                         "tabs.txt" 1))
               ["d 1"; ""; "q"]).
  compute_done.
Defined.

(* ------------------------------------------------------------------------- *)
(** ** More on domain extraction *)
(* ------------------------------------------------------------------------- *)

Module ExtractionShape.
Import JS JSFacts SearchFacts.

Lemma append_assoc (a b c : string) : (a +:+ b) +:+ c = a +:+ b +:+ c.
Proof.
  induction a as [|x a IH]; [done|]. by rewrite !append_cons, IH.
Qed.

Lemma isSuffix_refl s : isSuffix s s.
Proof. by exists EmptyString. Qed.

Lemma isSuffix_empty s : isSuffix EmptyString s.
Proof. exists s. by rewrite append_nil_r. Qed.

(** Dropping leading pieces before joining leaves a suffix of the whole. *)
Lemma join_drop_suffix sep (l : list string) : ∀ n,
  isSuffix (join sep (drop n l)) (join sep l).
Proof.
  induction l as [|x l IH]; intros [|n]; try apply isSuffix_refl.
  change (drop (S n) (x :: l)) with (drop n l).
  destruct (IH n) as [p Hp].
  destruct l as [|y l].
  - rewrite drop_nil. apply isSuffix_empty.
  - exists (x +:+ sep +:+ p). rewrite join_cons, Hp.
    by rewrite !append_assoc.
Qed.

Lemma slice_is_drop {A} (k : Z) (l : list A) :
  ∃ n, slice k l = drop n l ∧ (k < 0 → (length l - n ≤ Z.to_nat (- k))%nat).
Proof.
  unfold slice. eexists. split; [done|]. intros Hk.
  rewrite (proj2 (Z.ltb_lt k 0)) by lia. lia.
Qed.

(** Pieces that hold no separator come back from [split] after [join]. *)
Lemma split_join sep (l : list string) :
  Forall (λ x, split sep x = [x]) l → l ≠ [] →
  split sep (join (String sep EmptyString) l) = l.
Proof.
  induction 1 as [|x l Hx Hl IH]; intros Hne; [done|].
  destruct l as [|y l]; [done|].
  rewrite join_cons, append_cons, append_nil, split_app_sep, Hx.
  by rewrite IH.
Qed.

Lemma lower_char_idemp c : lower_char (lower_char c) = lower_char c.
Proof. by destruct c as [[] [] [] [] [] [] [] []]. Qed.

Lemma toLowerCase_idemp s : toLowerCase (toLowerCase s) = toLowerCase s.
Proof.
  induction s as [|c s IH]; simpl; [done|]. by rewrite lower_char_idemp, IH.
Qed.

Lemma toLowerCase_app p q :
  toLowerCase (p +:+ q) = toLowerCase p +:+ toLowerCase q.
Proof.
  induction p as [|c p IH]; [done|].
  rewrite append_cons. simpl. by rewrite IH, append_cons.
Qed.

(** A suffix of a lowercase string is lowercase. *)
Lemma lowercase_suffix s r :
  toLowerCase s = s → isSuffix r s → toLowerCase r = r.
Proof.
  intros Hs [p ->]. rewrite toLowerCase_app in Hs.
  induction p as [|c p IH]; [done|].
  simpl in Hs. rewrite !append_cons in Hs. injection Hs as _ Hs. by apply IH.
Qed.

(** Either some suffix of a table matches or none does. *)
Lemma suffix_dichotomy hostname (tlds : list string) :
  (∃ S, S ∈ tlds ∧ endsWith hostname ("." +:+ S) = true)
  ∨ Forall (λ S, endsWith hostname ("." +:+ S) = false) tlds.
Proof.
  induction tlds as [|T tlds [(S & HS & E)|HF]].
  - right. constructor.
  - left. exists S. split; [by right | done].
  - destruct (endsWith hostname ("." +:+ T)) eqn:E.
    + left. exists T. split; [by left | done].
    + right. by constructor.
Qed.

(** Every result of the extraction, by either route, is a run of final
    labels of the hostname. *)
Lemma extract_result_slice hostname d :
  match matchTld hostname (split "." hostname) MULTI_PART_TLDS with
  | Some d => Some d
  | None => Some (join "." (slice (-2) (split "." hostname)))
  end = Some d →
  ∃ n, d = join "." (drop n (split "." hostname))
       ∧ (length (split "." hostname) - n ≤ 3)%nat.
Proof.
  destruct (matchTld _ _ _) as [d'|] eqn:E.
  - intros [= ->].
    destruct (suffix_dichotomy hostname MULTI_PART_TLDS)
      as [(S & HS & Hends)|HF]; [|by rewrite matchTld_none in E].
    rewrite (matchTld_some _ _ _ 2 S table_label_counts HS Hends) in E.
    injection E as <-.
    destruct (slice_is_drop (- (Z.of_nat 2 + 1)) (split "." hostname))
      as (n & -> & Hn).
    exists n. split; [done|]. specialize (Hn ltac:(lia)). lia.
  - intros [= <-].
    destruct (slice_is_drop (-2) (split "." hostname)) as (n & -> & Hn).
    exists n. split; [done|]. specialize (Hn ltac:(lia)). lia.
Qed.

End ExtractionShape.

Section ExtractionMore.
Import JS JSFacts SearchFacts ExtractionShape.

Variable URL_hostname : string → option string.

(** X1. Whatever [extractDomain] returns is a suffix of the lowercased
    hostname, has at most three labels and is in lower case. *)
Theorem extractDomain_shape url h d :
  URL_hostname (trim url) = Some h →
  extractDomain URL_hostname url = Some d →
  isSuffix d (toLowerCase h) ∧ (labelCount d ≤ 3)%nat ∧ toLowerCase d = d.
Proof.
  intros Hurl. unfold extractDomain. rewrite Hurl. cbv zeta.
  intros (n & -> & Hn)%extract_result_slice.
  assert (isSuffix (join "." (drop n (split "." (toLowerCase h))))
                   (toLowerCase h)) as Hsuf.
  { rewrite <- (join_split "." (toLowerCase h)) at 2.
    apply join_drop_suffix. }
  split; [done|]. split.
  - unfold labelCount.
    destruct (drop n (split "." (toLowerCase h))) as [|x l] eqn:E.
    + simpl. lia.
    + rewrite split_join; [|rewrite <- E|done].
      * rewrite <- E, length_drop. lia.
      * apply Forall_drop, split_pieces.
  - eapply lowercase_suffix; [|exact Hsuf]. apply toLowerCase_idemp.
Qed.

(** The labels of a matching suffix are the last labels of the hostname. *)
Lemma suffix_labels hostname S :
  endsWith hostname ("." +:+ S) = true →
  lastLabels (labelCount S) (split "." hostname) = split "." S.
Proof.
  intros [p ->]%endsWith_inv. rewrite dot_append, split_app_sep.
  unfold lastLabels, labelCount.
  rewrite reverse_app, <- (length_reverse (split "." S)).
  by rewrite take_app_length, reverse_involutive.
Qed.

(** X2. No hostname ends with two different suffixes of the table. *)
Theorem listed_suffix_unique hostname S T :
  S ∈ MULTI_PART_TLDS → T ∈ MULTI_PART_TLDS →
  endsWith hostname ("." +:+ S) = true →
  endsWith hostname ("." +:+ T) = true →
  S = T.
Proof.
  intros HS HT ES ET.
  pose proof table_label_counts as HF. rewrite Forall_forall in HF.
  apply suffix_labels in ES, ET. rewrite (HF S HS) in ES.
  rewrite (HF T HT) in ET.
  rewrite <- (join_split "." S), <- (join_split "." T). congruence.
Qed.

(** X3. The order of the table is of no consequence: the loop gives the
    same answer over any rearrangement of it. *)
Theorem table_order_irrelevant hostname parts tlds :
  tlds ≡ₚ MULTI_PART_TLDS →
  matchTld hostname parts tlds = matchTld hostname parts MULTI_PART_TLDS.
Proof.
  intros Hperm.
  destruct (suffix_dichotomy hostname MULTI_PART_TLDS)
    as [(S & HS & Hends)|HF].
  - rewrite (matchTld_some _ _ _ 2 S table_label_counts HS Hends).
    apply (matchTld_some _ _ _ 2 S); [|by rewrite Hperm|done].
    rewrite Hperm. apply table_label_counts.
  - rewrite (matchTld_none _ _ _ HF). apply matchTld_none.
    by rewrite Hperm.
Qed.

End ExtractionMore.

(* ------------------------------------------------------------------------- *)
(** ** Lines and fields *)
(* ------------------------------------------------------------------------- *)

Module ParsingFacts.
Import JS JSFacts SearchFacts ExtractionShape.

Lemma pushHead_nonempty c l : pushHead c l ≠ [].
Proof. by destruct l. Qed.

Lemma splitPipe_nonempty s : splitPipe s ≠ [].
Proof.
  destruct s as [|c [|c1 [|c2 rest]]]; simpl; try done;
    try apply pushHead_nonempty.
  destruct (_ && _); [done | apply pushHead_nonempty].
Qed.

Lemma splitLines_nonempty s : splitLines s ≠ [].
Proof.
  destruct s as [|c [|c1 rest]]; simpl; try done;
    destruct (Ascii.eqb c LF); try done; try apply pushHead_nonempty.
  destruct (_ && _); [done | apply pushHead_nonempty].
Qed.

Lemma join_pushHead sep c l :
  l ≠ [] → join sep (pushHead c l) = String c (join sep l).
Proof.
  by destruct l as [|x [|y l]].
Qed.

(** Induction on strings with the hypothesis for every shorter string. *)
Lemma string_length_ind (P : string → Prop) :
  (∀ s, (∀ r, (String.length r < String.length s)%nat → P r) → P s) →
  ∀ s, P s.
Proof.
  intros Hstep s. remember (String.length s) as n eqn:Hn. revert s Hn.
  induction n as [n IH] using lt_wf_ind. intros s ->.
  apply Hstep. intros r Hr. by eapply IH.
Qed.

Lemma splitPipe_unfold c c1 c2 rest :
  splitPipe (String c (String c1 (String c2 rest)))
  = if Ascii.eqb c " " && Ascii.eqb c1 "|" && Ascii.eqb c2 " "
    then EmptyString :: splitPipe rest
    else pushHead c (splitPipe (String c1 (String c2 rest))).
Proof. reflexivity. Qed.

(** Joining the pieces with the separator gives the line back. *)
Lemma join_splitPipe s : join " | " (splitPipe s) = s.
Proof.
  induction s as [s IH] using string_length_ind.
  destruct s as [|c s']; [done|].
  assert (join " | " (pushHead c (splitPipe s')) = String c s') as Hpush.
  { rewrite join_pushHead by apply splitPipe_nonempty.
    rewrite IH; [done | simpl; lia]. }
  destruct s' as [|c1 [|c2 rest]]; try exact Hpush.
  rewrite splitPipe_unfold.
  destruct (Ascii.eqb_spec c " ") as [->|?]; [|exact Hpush].
  destruct (Ascii.eqb_spec c1 "|") as [->|?]; [|exact Hpush].
  destruct (Ascii.eqb_spec c2 " ") as [->|?]; [|exact Hpush].
  simpl andb. cbv iota.
  pose proof (splitPipe_nonempty rest).
  destruct (splitPipe rest) as [|x r] eqn:E; [done|].
  rewrite join_cons, <- E, IH by (simpl; lia). done.
Qed.

(** When no separator starts inside [u], the first piece is [u]. *)
Lemma splitPipe_first u : ∀ t,
  noPipe (u +:+ " |") →
  splitPipe (u +:+ " | " +:+ t) = u :: splitPipe t.
Proof.
  unfold noPipe. induction u as [|c u IH]; intros t Hno; [done|].
  change (String c u +:+ " | " +:+ t) with (String c (u +:+ " | " +:+ t)).
  change (String c u +:+ " |") with (String c (u +:+ " |")) in Hno.
  assert (splitPipe (u +:+ " |") = [u +:+ " |"]
          ∧ splitPipe (String c (u +:+ " | " +:+ t))
            = pushHead c (splitPipe (u +:+ " | " +:+ t))) as [Hu Hs].
  { assert (∃ c1 c2 r, u +:+ " |" = String c1 (String c2 r)
                       ∧ u +:+ " | " +:+ t
                         = String c1 (String c2 (r +:+ " " +:+ t)))
      as (c1 & c2 & r & E1 & E2).
    { destruct u as [|c1 [|c2 u]].
      - by exists " "%char, "|"%char, EmptyString.
      - by exists c1, " "%char, "|".
      - exists c1, c2, (u +:+ " |"). split; [done|].
        rewrite !append_cons. do 2 f_equal.
        by rewrite append_assoc. }
    rewrite E1, E2 in *. rewrite splitPipe_unfold in Hno |- *.
    destruct (Ascii.eqb c " " && Ascii.eqb c1 "|" && Ascii.eqb c2 " ");
      [done|].
    split; [|done].
    pose proof (splitPipe_nonempty (String c1 (String c2 r))).
    destruct (splitPipe (String c1 (String c2 r))) as [|x l]; [done|].
    simpl in Hno. by simplify_eq. }
  rewrite Hs, (IH t Hu). done.
Qed.

Lemma trimEnd_idemp s : trimEnd (trimEnd s) = trimEnd s.
Proof.
  induction s as [|c s IH]; simpl; [done|].
  destruct (is_space c && String.eqb (trimEnd s) EmptyString) eqn:E;
    [done|].
  simpl. by rewrite IH, E.
Qed.

Lemma trimStart_head s :
  trimStart s = EmptyString
  ∨ ∃ c r, trimStart s = String c r ∧ is_space c = false.
Proof.
  induction s as [|c s IH]; simpl; [by left|].
  destruct (is_space c) eqn:E; [done|]. right. by exists c, s.
Qed.

(** Trimming a trimmed string changes nothing. *)
Lemma trim_idemp s : trim (trim s) = trim s.
Proof.
  unfold trim.
  destruct (trimStart_head s) as [->|(c & r & -> & Hc)]; [done|].
  assert (trimStart (trimEnd (String c r)) = trimEnd (String c r)) as ->.
  { simpl. rewrite Hc. simpl. by rewrite Hc. }
  apply trimEnd_idemp.
Qed.

(** A line without line breaks followed by a line feed, or by a carriage
    return and a line feed, is split off whole. *)
Lemma splitLines_line x rest :
  noLineBreak x →
  splitLines (x +:+ String LF rest) = x :: splitLines rest
  ∧ splitLines (x +:+ String CR (String LF rest)) = x :: splitLines rest.
Proof.
  unfold noLineBreak. induction x as [|c x IH]; intros Hx.
  - done.
  - simpl in Hx. apply Forall_cons in Hx as [[Hlf Hcr] Hx].
    destruct (IH Hx) as [IH1 IH2]. rewrite !append_cons.
    assert (Ascii.eqb c LF = false) as E1 by by apply Ascii.eqb_neq.
    assert (Ascii.eqb c CR = false) as E2 by by apply Ascii.eqb_neq.
    split.
    + simpl. rewrite E1, E2. simpl andb.
      destruct (x +:+ String LF rest) eqn:E; by rewrite IH1.
    + simpl. rewrite E1, E2. simpl andb.
      destruct (x +:+ String CR (String LF rest)) eqn:E; by rewrite IH2.
Qed.

Lemma splitLines_last x : noLineBreak x → splitLines x = [x].
Proof.
  unfold noLineBreak. induction x as [|c x IH]; intros Hx; [done|].
  simpl in Hx. apply Forall_cons in Hx as [[Hlf Hcr] Hx].
  simpl. rewrite (proj2 (Ascii.eqb_neq c LF) Hlf).
  rewrite (proj2 (Ascii.eqb_neq c CR) Hcr). simpl andb.
  destruct x; by rewrite IH.
Qed.

Lemma splitLines_join (ls : list string) :
  Forall noLineBreak ls → ls ≠ [] →
  splitLines (join (String LF EmptyString) ls) = ls
  ∧ splitLines (join (String CR (String LF EmptyString)) ls) = ls.
Proof.
  induction 1 as [|x ls Hx Hls IH]; intros Hne; [done|].
  destruct ls as [|y ls].
  - split; by apply splitLines_last.
  - destruct IH as [IH1 IH2]; [done|].
    rewrite !join_cons, !append_cons, !append_nil.
    destruct (splitLines_line x (join (String LF EmptyString) (y :: ls)) Hx)
      as [-> _].
    destruct (splitLines_line x
                (join (String CR (String LF EmptyString)) (y :: ls)) Hx)
      as [_ ->].
    by rewrite IH1, IH2.
Qed.

End ParsingFacts.

Section ParsingTheorems.
Import JS JSFacts SearchFacts ExtractionShape ParsingFacts.

Variable URL_hostname : string → option string.

Local Abbreviation parse := (parseLine URL_hostname).

(** The fields of a parsed line, read off the code. *)
Lemma parseLine_inv line e :
  parse line = Some e →
  matchesHttp (trim line) = true
  ∧ ∃ d, extractDomain URL_hostname
           (default EmptyString (head (splitPipe (trim line)))) = Some d
      ∧ d ≠ EmptyString
      ∧ e = mkEntry (trim (default EmptyString (head (splitPipe (trim line)))))
                    (trim (join " | " (tail (splitPipe (trim line)))))
                    d line.
Proof.
  unfold parseLine.
  destruct (String.eqb (trim line) EmptyString); [done|].
  destruct (matchesHttp (trim line)); [|done]. simpl.
  destruct (extractDomain _ _) as [d|]; [|done]. simpl.
  destruct (String.eqb_spec d EmptyString); [done|]. simpl.
  intros [= <-]. split; [done|]. by exists d.
Qed.

(** X4. A line that parses starts, once trimmed and whatever the case,
    with http:// or https://; the entry keeps the line untouched in [raw],
    its domain is not empty, and the domain is what [extractDomain] gives
    for the entry's own [url]. *)
Theorem parseLine_entry line e :
  parse line = Some e →
  raw e = line
  ∧ domain e ≠ EmptyString
  ∧ extractDomain URL_hostname (url e) = Some (domain e)
  ∧ ((∃ rest, toLowerCase (trim line) = "http://" +:+ rest)
     ∨ (∃ rest, toLowerCase (trim line) = "https://" +:+ rest)).
Proof.
  intros (Hhttp & d & Hd & Hne & ->)%parseLine_inv. simpl.
  repeat split; try done.
  - unfold extractDomain in *. by rewrite trim_idemp.
  - unfold matchesHttp in Hhttp.
    apply orb_prop in Hhttp as [[q Hq]%prefix_inv|[q Hq]%prefix_inv];
      [left | right]; by exists q.
Qed.

(** X5. The title is everything after the first " | ", later separators
    included, trimmed; the URL is what stands before it, trimmed.  A line
    without separator has the empty title. *)
Theorem parseLine_title line e :
  parse line = Some e →
  (∀ u t, trim line = u +:+ " | " +:+ t → noPipe (u +:+ " |") →
          url e = trim u ∧ title e = trim t)
  ∧ (noPipe (trim line) → url e = trim line ∧ title e = EmptyString).
Proof.
  intros (_ & d & _ & _ & ->)%parseLine_inv. simpl. split.
  - intros u t -> Hu. rewrite (splitPipe_first u t Hu). simpl.
    by rewrite join_splitPipe.
  - unfold noPipe. intros ->. simpl. by rewrite trim_idemp.
Qed.

(** X6. Between LF and CRLF line endings [parseFile] sees no difference:
    either way it is the lines, parsed one by one, the failures left
    out. *)
Theorem parseFile_line_endings (ls : list string) :
  Forall noLineBreak ls → ls ≠ [] →
  parseFile URL_hostname (join (String LF EmptyString) ls) = omap parse ls
  ∧ parseFile URL_hostname (join (String CR (String LF EmptyString)) ls)
    = omap parse ls.
Proof.
  intros Hls Hne. unfold parseFile.
  destruct (splitLines_join ls Hls Hne) as [-> ->]. done.
Qed.

Lemma omap_parse_sublist (ls : list string) :
  raw <$> omap parse ls `sublist_of` ls.
Proof.
  induction ls as [|l ls IH]; simpl; [done|].
  destruct (parse l) as [e|] eqn:E; simpl.
  - apply parseLine_inv in E as (_ & d & _ & _ & ->). simpl.
    by apply sublist_skip.
  - by apply sublist_cons.
Qed.

(** X7. Reading a file invents nothing and keeps the order: the raw texts
    of the entries are lines of the content, in the order of the content,
    and every entry has a non-empty domain that [extractDomain] gives
    for its [url]. *)
Theorem parseFile_entries content :
  raw <$> parseFile URL_hostname content `sublist_of` splitLines content
  ∧ Forall (λ e, domain e ≠ EmptyString
                 ∧ extractDomain URL_hostname (url e) = Some (domain e))
           (parseFile URL_hostname content).
Proof.
  split; [apply omap_parse_sublist|].
  apply Forall_forall. intros e (l & _ & He)%list_elem_of_omap.
  apply parseLine_entry in He. tauto.
Qed.

End ParsingTheorems.

(* ------------------------------------------------------------------------- *)
(** ** More on the grouping index *)
(* ------------------------------------------------------------------------- *)

Section GroupingMore.

Local Abbreviation step :=
  (λ (groups : Groups) (entry : Entry),
     Map_set (domain entry)
             (default [] (Map_get (domain entry) groups) ++ [entry]) groups).

Lemma Map_get_set_eq k v (m : Groups) : Map_get k (Map_set k v m) = Some v.
Proof.
  induction m as [|[k' v'] m IH]; simpl.
  - by rewrite String.eqb_refl.
  - destruct (String.eqb k' k) eqn:E; simpl; by rewrite E.
Qed.

Lemma Map_get_set_ne k k' v (m : Groups) :
  k' ≠ k → Map_get k' (Map_set k v m) = Map_get k' m.
Proof.
  intros Hne. induction m as [|[k0 v0] m IH]; simpl.
  - by destruct (String.eqb_spec k k').
  - destruct (String.eqb_spec k0 k) as [->|?]; simpl; [|by rewrite IH].
    by destruct (String.eqb_spec k k').
Qed.

Lemma Map_get_is_Some k (m : Groups) :
  is_Some (Map_get k m) ↔ k ∈ Map_keys m.
Proof.
  unfold Map_keys. induction m as [|[k' v'] m IH]; simpl.
  - rewrite elem_of_nil. split; [by intros [? ?] | done].
  - rewrite elem_of_cons. destruct (String.eqb_spec k' k) as [->|?].
    + split; [by left | by eexists].
    + rewrite IH. split; [by right | by intros [?|?]].
Qed.

Lemma Map_get_elem_2 k v (m : Groups) : Map_get k m = Some v → (k, v) ∈ m.
Proof.
  induction m as [|[k' v'] m IH]; simpl; [done|].
  destruct (String.eqb_spec k' k) as [->|?].
  - intros [= ->]. by left.
  - intros H. right. by apply IH.
Qed.

Lemma Map_keys_set k v (m : Groups) :
  Map_keys (Map_set k v m)
  = if bool_decide (k ∈ Map_keys m) then Map_keys m else Map_keys m ++ [k].
Proof.
  unfold Map_keys. induction m as [|[k' v'] m IH]; csimpl; [done|].
  destruct (String.eqb_spec k' k) as [->|Hne]; csimpl.
  - by rewrite bool_decide_eq_true_2 by by left.
  - rewrite IH. case_bool_decide as H1; case_bool_decide as H2; try done.
    + destruct H2. by right.
    + apply elem_of_cons in H2 as [?|?]; by simplify_eq.
Qed.

Lemma firstOccurrences_seen (s1 s2 l : list string) :
  (∀ x, x ∈ s1 ↔ x ∈ s2) → firstOccurrences s1 l = firstOccurrences s2 l.
Proof.
  revert s1 s2. induction l as [|y l IH]; intros s1 s2 Hs; simpl; [done|].
  rewrite (bool_decide_ext _ _ (Hs y)). case_bool_decide; [by apply IH|].
  f_equal. apply IH. intros x. rewrite !elem_of_cons, Hs. tauto.
Qed.

Lemma groupByDomain_acc_keys (entries : list Entry) : ∀ acc : Groups,
  Map_keys (foldl step acc entries)
  = Map_keys acc ++ firstOccurrences (Map_keys acc) (domain <$> entries).
Proof.
  induction entries as [|e entries IH]; intros acc; simpl.
  - by rewrite app_nil_r.
  - rewrite IH, Map_keys_set. case_bool_decide as Hd; [done|].
    rewrite <- app_assoc. simpl. do 2 f_equal.
    apply firstOccurrences_seen. intros x.
    rewrite elem_of_app, list_elem_of_singleton, elem_of_cons. tauto.
Qed.

Lemma groupByDomain_acc_get (entries : list Entry) d : ∀ acc : Groups,
  default [] (Map_get d (foldl step acc entries))
  = default [] (Map_get d acc) ++ filter (λ e, domain e = d) entries.
Proof.
  induction entries as [|e entries IH]; intros acc; simpl.
  - by rewrite app_nil_r.
  - rewrite IH. destruct (decide (domain e = d)) as [<-|Hne].
    + rewrite Map_get_set_eq, filter_cons_True by done.
      simpl. by rewrite <- app_assoc.
    + rewrite Map_get_set_ne, filter_cons_False by done. done.
Qed.

Lemma Map_set_total k e (m : Groups) :
  totalCount (Map_set k (default [] (Map_get k m) ++ [e]) m)
  = S (totalCount m).
Proof.
  unfold totalCount. induction m as [|[k' v'] m IH]; csimpl; [done|].
  destruct (String.eqb_spec k' k) as [->|?]; csimpl.
  - unfold count at 1 3. simpl. rewrite length_app. simpl. lia.
  - rewrite IH. lia.
Qed.

Lemma groupByDomain_acc_total (entries : list Entry) : ∀ acc : Groups,
  totalCount (foldl step acc entries)
  = (totalCount acc + length entries)%nat.
Proof.
  induction entries as [|e entries IH]; intros acc; simpl; [lia|].
  rewrite IH, Map_set_total. lia.
Qed.

(** X8. The index lists the domains in the order in which they first
    appear among the entries, each once. *)
Theorem groupByDomain_order entries :
  Map_keys (groupByDomain entries)
  = firstOccurrences [] (domain <$> entries).
Proof. apply (groupByDomain_acc_keys entries []). Qed.

(** X9. A pair is in the index exactly when its list is the non-empty
    list of all entries of that domain, in the order of the file. *)
Theorem groupByDomain_group entries d v :
  (d, v) ∈ groupByDomain entries
  ↔ v = filter (λ e, domain e = d) entries ∧ v ≠ [].
Proof.
  pose proof (groupByDomain_acc_get entries d []) as Hget.
  simpl in Hget. fold (groupByDomain entries) in Hget.
  assert (d ∈ Map_keys (groupByDomain entries)
          ↔ filter (λ e, domain e = d) entries ≠ []) as Hkey.
  { rewrite groupByDomain_keys. split.
    - intros (e & He & Hd) Hnil.
      assert (e ∈ filter (λ e, domain e = d) entries) as Hin
        by by apply list_elem_of_filter.
      rewrite Hnil in Hin. by apply elem_of_nil in Hin.
    - destruct (filter _ entries) as [|e l] eqn:E; [done|]. intros _.
      assert (e ∈ filter (λ e, domain e = d) entries) as Hin
        by (rewrite E; by left).
      apply list_elem_of_filter in Hin as [Hd Hin]. by exists e. }
  split.
  - intros Hin.
    assert (d ∈ Map_keys (groupByDomain entries)) as Hd.
    { apply list_elem_of_fmap. by exists (d, v). }
    apply Map_get_elem in Hin; [|apply groupByDomain_NoDup].
    rewrite Hin in Hget. simpl in Hget. subst v. split; [done|].
    by apply Hkey.
  - intros [-> Hne]. apply Hkey, Map_get_is_Some in Hne as [v Hv].
    rewrite Hv in Hget. simpl in Hget. subst v. by apply Map_get_elem_2.
Qed.

(** X10. Grouping loses no entry and makes none up: the groups together
    hold as many entries as there are. *)
Theorem groupByDomain_total entries :
  totalCount (groupByDomain entries) = length entries.
Proof. apply (groupByDomain_acc_total entries []). Qed.

End GroupingMore.

(* ------------------------------------------------------------------------- *)
(** ** More on the displayed list *)
(* ------------------------------------------------------------------------- *)

Section DisplayMore.
Import JS JSFacts SearchFacts.

Local Abbreviation byCount :=
  (λ a b : string * list Entry, (count b ≤ count a)%nat).

Lemma insertByCount_sorted x (l : Groups) :
  StronglySorted byCount l → StronglySorted byCount (insertByCount x l).
Proof.
  induction 1 as [|y l Hl IH Hy]; simpl.
  - repeat constructor.
  - destruct (Nat.leb_spec (count y) (count x)) as [Hle|Hgt].
    + constructor; [by constructor|]. constructor; [done|].
      eapply Forall_impl; [exact Hy|]. simpl. lia.
    + constructor; [done|]. rewrite insertByCount_perm.
      constructor; [lia | done].
Qed.

Lemma sortByCount_sorted (l : Groups) : StronglySorted byCount (sortByCount l).
Proof.
  induction l as [|x l IH]; simpl; [constructor|].
  by apply insertByCount_sorted.
Qed.

Lemma insertByCount_stable c x (l : Groups) :
  filter (λ g, count g = c) (insertByCount x l)
  = filter (λ g, count g = c) (x :: l).
Proof.
  induction l as [|y l IH]; simpl; [done|].
  destruct (Nat.leb_spec (count y) (count x)) as [Hle|Hgt]; [done|].
  rewrite (filter_cons _ y), IH, !(filter_cons _ x), (filter_cons _ y).
  repeat case_decide; try done; lia.
Qed.

Lemma sortByCount_stable c (l : Groups) :
  filter (λ g, count g = c) (sortByCount l) = filter (λ g, count g = c) l.
Proof.
  induction l as [|x l IH]; simpl; [done|].
  by rewrite insertByCount_stable, !filter_cons, IH.
Qed.

(** X11. The displayed list is in descending order of count, holds
    exactly the groups that reach the threshold, and repeats no domain
    when the index repeats none. *)
Theorem getSortedDomains_sorted (groups : Groups) threshold :
  StronglySorted byCount (getSortedDomains groups threshold)
  ∧ getSortedDomains groups threshold
    ≡ₚ filter (λ g, threshold ≤ Z.of_nat (count g)) groups
  ∧ (NoDup (Map_keys groups) →
     NoDup (Map_keys (getSortedDomains groups threshold))).
Proof.
  split; [apply sortByCount_sorted|].
  split; [apply sortByCount_perm|].
  intros Hnd. unfold Map_keys, getSortedDomains in *.
  rewrite sortByCount_perm.
  eapply sublist_NoDup; [exact Hnd|].
  apply fmap_sublist, sublist_filter.
Qed.

(** X12. The sort is stable: among the domains shown, those with the same
    count stand in the order the index has them. *)
Theorem getSortedDomains_stable (groups : Groups) threshold c :
  threshold ≤ Z.of_nat c →
  filter (λ g, count g = c) (getSortedDomains groups threshold)
  = filter (λ g, count g = c) groups.
Proof.
  intros Hc. unfold getSortedDomains. rewrite sortByCount_stable.
  rewrite list_filter_filter. apply list_filter_iff. intros g.
  split; [tauto|]. intros Hg. split; [done | lia].
Qed.

End DisplayMore.

(* ------------------------------------------------------------------------- *)
(** ** More on reference resolution *)
(* ------------------------------------------------------------------------- *)

Section ResolutionMore.
Import JS JSFacts SearchFacts.

Lemma digits_app s : ∀ a rest,
  forallb isDigit (list_ascii_of_string s) = true →
  noLeadingDigit rest = true →
  digits (s +:+ rest) (Some a)
  = Some (foldl (λ acc c, 10 * acc + default 0 (digit_of c)) a
                (list_ascii_of_string s)).
Proof.
  induction s as [|c s IH]; intros a rest Hs Hrest.
  - rewrite append_nil. destruct rest as [|c r]; [done|].
    simpl in *. unfold isDigit in Hrest. by destruct (digit_of c).
  - rewrite append_cons. simpl in *.
    apply andb_prop in Hs as [Hc Hs]. unfold isDigit in Hc.
    destruct (digit_of c) as [d|]; [|done]. simpl. by apply IH.
Qed.

Lemma parseInt_digit_first c s :
  isDigit c = true → parseInt (String c s) = digits (String c s) None.
Proof.
  intros Hc. unfold isDigit in Hc.
  destruct (digit_of c) as [d|] eqn:Hd; [|done]. clear Hc.
  unfold digit_of in Hd.
  destruct (_ && _)%bool eqn:Hr in Hd; [|done].
  apply andb_prop in Hr as [H1%Nat.leb_le H2%Nat.leb_le].
  assert (is_space c = false) as Hsp.
  { unfold is_space.
    apply orb_false_intro; [apply andb_false_intro2|];
      [apply Nat.leb_gt | apply Nat.eqb_neq]; lia. }
  assert (c ≠ "-"%char ∧ c ≠ "+"%char) as [Hm Hp].
  { split; intros ->.
    - change (nat_of_ascii "-") with 45%nat in *. lia.
    - change (nat_of_ascii "+") with 43%nat in *. lia. }
  unfold parseInt. simpl trimStart. rewrite Hsp.
  clear - Hm Hp. destruct c as [[] [] [] [] [] [] [] []]; done.
Qed.

(** What starts with digits is read as the number they spell, whatever
    follows them. *)
Lemma parseInt_leading ds rest :
  denotesPositiveInteger ds = true → noLeadingDigit rest = true →
  parseInt (ds +:+ rest) = Some (decimalValue ds).
Proof.
  unfold denotesPositiveInteger.
  intros [[Hne Hall]%andb_prop Hpos]%andb_prop Hrest.
  destruct ds as [|c ds]; [done|]. simpl in Hall.
  apply andb_prop in Hall as [Hc Hds]. rewrite append_cons.
  rewrite (parseInt_digit_first _ _ Hc). unfold decimalValue. simpl.
  unfold isDigit in Hc. destruct (digit_of c) as [d|]; [|done]. simpl.
  by apply digits_app.
Qed.

(** X13. An argument that starts with the digits of a number of the list
    picks the row of that number, whatever text follows the digits and
    whatever the names in the list. *)
Theorem resolveDomain_by_number ds rest (sorted : Groups) :
  denotesPositiveInteger ds = true →
  noLeadingDigit rest = true →
  decimalValue ds ≤ Z.of_nat (length sorted) →
  ∃ g, sorted !! Z.to_nat (decimalValue ds - 1) = Some g
       ∧ resolveDomain (ds +:+ rest) sorted = Some g.1.
Proof.
  intros Hds Hrest Hle.
  pose proof (parseInt_denoted ds Hds) as [_ Hpos].
  unfold resolveDomain. rewrite (parseInt_leading _ _ Hds Hrest).
  unfold isListNumber.
  rewrite (proj2 (Z.leb_le 1 _)), (proj2 (Z.leb_le _ _) Hle) by lia.
  simpl.
  destruct (lookup_lt_is_Some_2 sorted (Z.to_nat (decimalValue ds - 1)))
    as [g Hg]; [lia|].
  exists g. by rewrite Hg.
Qed.

End ResolutionMore.

(* ------------------------------------------------------------------------- *)
(** ** More on the commands and the loop *)
(* ------------------------------------------------------------------------- *)

Section SessionMore.
Import JS JSFacts SearchFacts.

Variable entries : list Entry.
Variable groups : Groups.
Variable inputFile : string.

Local Abbreviation exec := (execCommand entries groups inputFile).

Lemma exec_show input st :
  commandOf input = "show" ∨ commandOf input = "s" →
  exec input st = showCmd groups (argOf input) st.
Proof. unfold execCommand. by intros [-> | ->]. Qed.

Lemma printUrls_logs d es e : e ∈ printUrls d es → ∃ line, e = Log line.
Proof.
  unfold printUrls. rewrite !elem_of_app, !list_elem_of_singleton.
  intros [->|[Hin| ->]]; try by eexists.
  apply list_elem_of_join in Hin as (l & He & Hl).
  apply elem_of_lookup_imap in Hl as (i & x & -> & _).
  apply elem_of_cons in He as [->|He]; [by eexists|].
  destruct (String.eqb (title x) EmptyString).
  - by apply elem_of_nil in He.
  - apply list_elem_of_singleton in He as ->. by eexists.
Qed.

Lemma filesWritten_none evs :
  (∀ e, e ∈ evs → ∀ path data, e ≠ WriteFile path data) →
  filesWritten evs = [].
Proof.
  induction evs as [|e evs IH]; intros H; [done|].
  assert (filesWritten evs = []) as Hevs.
  { apply IH. intros e' He'. apply H. by right. }
  pose proof (H e ltac:(by left)) as He.
  destruct e; simpl; try done. by destruct (He path data).
Qed.

Lemma showCmd_no_write arg st : filesWritten (showCmd groups arg st).2 = [].
Proof.
  unfold showCmd. simpl. apply filesWritten_none. intros e.
  rewrite elem_of_app, list_elem_of_singleton. intros [He| ->]; [|done].
  destruct (_ && _).
  - by apply printUrls_logs in He as [line ->].
  - by apply list_elem_of_singleton in He as ->.
Qed.

Lemma deleteCmd_no_write arg st :
  filesWritten (deleteCmd groups arg st).2 = [].
Proof. unfold deleteCmd. by destruct (truthy _). Qed.

Lemma undoCmd_no_write arg st : filesWritten (undoCmd groups arg st).2 = [].
Proof. unfold undoCmd. by case_bool_decide. Qed.

Lemma thresholdCmd_no_write arg st : filesWritten (thresholdCmd arg st).2 = [].
Proof.
  unfold thresholdCmd. by destruct (parseInt _) as [n|]; [destruct (0 <? n)|].
Qed.

(** X14. The name that show resolves is always a key of the index, so
    "Domain not found" is said only when resolution fails; otherwise the
    tabs of the resolved domain are listed, and with an index free of
    repeated keys that domain reaches the threshold. *)
Theorem show_lists_resolved_group input st :
  commandOf input = "show" ∨ commandOf input = "s" →
  (∀ d, resolveDomain (argOf input) (getSortedDomains groups (threshold st))
        = Some d →
        d ≠ EmptyString →
        ∃ es, Map_get d groups = Some es
              ∧ exec input st = (Continue st, printUrls d es ++ [pressEnter])
              ∧ (NoDup (Map_keys groups) → threshold st ≤ Z.of_nat (length es)))
  ∧ (truthy (resolveDomain (argOf input)
                           (getSortedDomains groups (threshold st))) = false →
     exec input st
     = (Continue st, [Log (RED +:+ "Domain not found" +:+ RESET); pressEnter])).
Proof.
  intros Hcmd. rewrite (exec_show _ _ Hcmd). unfold showCmd. split.
  - intros d Hres Hd. rewrite Hres. simpl.
    destruct (String.eqb_spec d EmptyString) as [|_]; [done|]. simpl.
    pose proof Hres as [es' Hin]%resolveDomain_elem.
    apply getSortedDomains_elem in Hin as [Hin Hcount].
    assert (is_Some (Map_get d groups)) as [es Hes].
    { apply Map_get_is_Some, list_elem_of_fmap. by exists (d, es'). }
    exists es. unfold Map_has. rewrite Hes. simpl.
    split; [done|]. split; [done|].
    intros Hnd. rewrite (Map_get_elem _ _ _ Hnd Hin) in Hes.
    by simplify_eq.
  - by intros ->.
Qed.

(** X15. Undo takes back a delete: when a delete command marks a domain
    that was not marked, an undo command aimed at that domain gives the
    state before the delete. *)
Theorem delete_then_undo input1 input2 d st :
  commandOf input1 = "delete" ∨ commandOf input1 = "d" →
  commandOf input2 = "undo" ∨ commandOf input2 = "u" →
  resolveDomain (argOf input1) (getSortedDomains groups (threshold st))
  = Some d →
  d ≠ EmptyString →
  undoTarget groups (argOf input2) st = d →
  d ∉ markedForDeletion st →
  stateAfter (exec input2 (stateAfter (exec input1 st) st))
             (stateAfter (exec input1 st) st)
  = st.
Proof.
  intros Hc1 Hc2 Hres Hd Hundo Hnot.
  rewrite (exec_delete _ _ _ _ _ Hc1), (deleteCmd_state groups).
  cbv zeta. rewrite Hres. simpl.
  destruct (String.eqb_spec d EmptyString) as [|_]; [done|]. simpl.
  rewrite (exec_undo _ _ _ _ _ Hc2). unfold undoCmd, stateAfter.
  change (undoTarget groups (argOf input2) (mkState _ _))
    with (undoTarget groups (argOf input2) st).
  rewrite Hundo. rewrite bool_decide_eq_true_2 by (apply elem_of_union; left; by apply elem_of_singleton).
  simpl. destruct st as [th marks]. simpl in *. f_equal.
  apply set_eq. intros x.
  rewrite elem_of_difference, elem_of_union, elem_of_singleton.
  split; [tauto|]. intros Hx. split; [tauto|]. by intros ->.
Qed.

(** One turn writes at most the file named in a save, and never the
    input file. *)
Lemma exec_writes input st p :
  p ∈ filesWritten (exec input st).2 →
  commandOf input = "save" ∧ p = argOf input ∧ p ≠ inputFile
  ∧ p ≠ EmptyString ∧ markedForDeletion st ≠ ∅.
Proof.
  destruct (String.eqb_spec (commandOf input) "save") as [Hsave|Hne].
  - rewrite (exec_save entries groups inputFile input st Hsave).
    destruct (saveCmd_events entries inputFile (argOf input) st)
      as (_ & H1 & H2 & H3 & H4).
    destruct (decide (argOf input = EmptyString)) as [He|He].
    { rewrite (H1 He). simpl. by intros ?%elem_of_nil. }
    destruct (decide (markedForDeletion st = ∅)) as [Hm|Hm].
    { rewrite (H2 He Hm). simpl. by intros ?%elem_of_nil. }
    destruct (decide (argOf input = inputFile)) as [Hf|Hf].
    { rewrite (H3 He Hm Hf). simpl. by intros ?%elem_of_nil. }
    rewrite (H4 He Hm Hf). intros ->%list_elem_of_singleton. done.
  - intros Hp. exfalso. revert Hp. unfold execCommand.
    destruct (String.eqb_spec (commandOf input) "save"); [done|]. simpl.
    destruct (_ || _); [by rewrite showCmd_no_write; intros ?%elem_of_nil|].
    destruct (_ || _); [by rewrite deleteCmd_no_write; intros ?%elem_of_nil|].
    destruct (_ || _); [by rewrite undoCmd_no_write; intros ?%elem_of_nil|].
    destruct (_ || _);
      [by rewrite thresholdCmd_no_write; intros ?%elem_of_nil|].
    destruct (_ || _); simpl; by intros ?%elem_of_nil.
Qed.

Lemma filesWritten_app evs1 evs2 :
  filesWritten (evs1 ++ evs2) = filesWritten evs1 ++ filesWritten evs2.
Proof. apply omap_app. Qed.

Lemma runLoop_writes stdin : ∀ st p,
  (p ∈ filesWritten (runLoop entries groups inputFile stdin st).2 →
   p ≠ inputFile)
  ∧ (p ∈ filesWritten (runLoop entries groups inputFile (tail stdin) st).2 →
     p ≠ inputFile).
Proof.
  induction stdin as [|line rest IH]; intros st p.
  - split; simpl; by intros ?%elem_of_nil.
  - split; [|apply IH]. simpl.
    destruct (execCommand _ _ _ _ st) as [[st'|] evs] eqn:E.
    + assert (∀ q, q ∈ filesWritten evs → q ≠ inputFile) as Hevs.
      { intros q Hq. replace evs with (exec (trim line) st).2 in Hq
          by by rewrite E.
        by apply exec_writes in Hq as (_ & _ & ? & _). }
      destruct (IH st' p) as [H1 H2].
      destruct (awaitsEnter evs).
      * destruct rest as [|ack rest']; simpl in *.
        -- rewrite app_nil_r. apply Hevs.
        -- destruct (runLoop _ _ _ rest' st') as [final evs'].
           simpl in *. rewrite filesWritten_app.
           intros [?|?]%elem_of_app; [by apply Hevs | by apply H2].
      * destruct (runLoop _ _ _ rest st') as [final evs'].
        simpl in *. rewrite filesWritten_app.
        intros [?|?]%elem_of_app; [by apply Hevs | by apply H1].
    + simpl. intros Hq.
      replace evs with (exec (trim line) st).2 in Hq by by rewrite E.
      by apply exec_writes in Hq as (_ & _ & ? & _).
Qed.

(** X16. The only write a session refuses is one whose path is,
    character for character, the name the input file was opened under.
    Whatever is typed, no file is written under that name; a turn writes
    at most one file, under the name given to a save, and only when some
    domain is marked.  Any other name is written to once the guards are
    passed, another spelling of the input file's path included: the
    guard compares names, not files. *)
Theorem save_guard_compares_names :
  (∀ initialThreshold stdin,
     inputFile ∉ filesWritten
       (runInteractive entries groups inputFile initialThreshold stdin).2)
  ∧ (∀ input st p,
       p ∈ filesWritten (exec input st).2 →
       commandOf input = "save" ∧ p = argOf input ∧ p ≠ inputFile
       ∧ markedForDeletion st ≠ ∅)
  ∧ (∀ input st,
       commandOf input = "save" →
       argOf input ≠ EmptyString →
       markedForDeletion st ≠ ∅ →
       argOf input ≠ inputFile →
       filesWritten (exec input st).2 = [argOf input]).
Proof.
  split; [|split].
  - intros th stdin Hin. by apply (runLoop_writes stdin _ inputFile) in Hin.
  - intros input st p Hp. apply exec_writes in Hp. tauto.
  - intros input st Hcmd He Hm Hf.
    rewrite (exec_save entries groups inputFile input st Hcmd).
    by apply saveCmd_events.
Qed.

(** X17. Only the threshold command moves the threshold and only delete
    and undo move the marks: every other line leaves the state as it
    was. *)
Theorem exec_frame input st st' evs :
  exec input st = (Continue st', evs) →
  (threshold st' ≠ threshold st →
   commandOf input = "threshold" ∨ commandOf input = "t")
  ∧ (markedForDeletion st' ≠ markedForDeletion st →
     commandOf input = "delete" ∨ commandOf input = "d"
     ∨ commandOf input = "undo" ∨ commandOf input = "u").
Proof.
  unfold execCommand.
  destruct (String.eqb_spec (commandOf input) "show"); simpl.
  { unfold showCmd. intros [= <- _]. by split. }
  destruct (String.eqb_spec (commandOf input) "s"); simpl.
  { unfold showCmd. intros [= <- _]. by split. }
  destruct (String.eqb_spec (commandOf input) "delete"); simpl.
  { unfold deleteCmd. destruct (truthy _); intros [= <- _]; split;
      try done; tauto. }
  destruct (String.eqb_spec (commandOf input) "d"); simpl.
  { unfold deleteCmd. destruct (truthy _); intros [= <- _]; split;
      try done; tauto. }
  destruct (String.eqb_spec (commandOf input) "undo"); simpl.
  { unfold undoCmd. case_bool_decide; intros [= <- _]; split;
      try done; tauto. }
  destruct (String.eqb_spec (commandOf input) "u"); simpl.
  { unfold undoCmd. case_bool_decide; intros [= <- _]; split;
      try done; tauto. }
  destruct (String.eqb_spec (commandOf input) "save"); simpl.
  { unfold saveCmd. intros [= <- _]. by split. }
  destruct (String.eqb_spec (commandOf input) "threshold"); simpl.
  { unfold thresholdCmd.
    destruct (parseInt _) as [k|]; [destruct (0 <? k)|];
      intros [= <- _]; split; try done; tauto. }
  destruct (String.eqb_spec (commandOf input) "t"); simpl.
  { unfold thresholdCmd.
    destruct (parseInt _) as [k|]; [destruct (0 <? k)|];
      intros [= <- _]; split; try done; tauto. }
  destruct (_ || _); [done|]. intros [= <- _]. by split.
Qed.

(** X18. The threshold of a session is the one it started with or a
    positive number: it can only be replaced by a positive one. *)
Theorem threshold_stays_positive initialThreshold st :
  reachable entries groups inputFile initialThreshold st →
  threshold st = initialThreshold ∨ 0 < threshold st.
Proof.
  induction 1 as [|st input st' evs _ IH Hexec]; [by left|].
  destruct (decide (threshold st' = threshold st)) as [->|Hne]; [done|].
  right. destruct (exec_frame _ _ _ _ Hexec) as [Hcmd _].
  specialize (Hcmd Hne). rewrite (exec_threshold _ _ _ _ _ Hcmd) in Hexec.
  unfold thresholdCmd in Hexec.
  destruct (parseInt _) as [k|]; [|by simplify_eq].
  destruct (Z.ltb_spec 0 k); by simplify_eq.
Qed.

End SessionMore.

(* ------------------------------------------------------------------------- *)
(** ** Saving and reading back *)
(* ------------------------------------------------------------------------- *)

Section SaveRoundTrip.
Import JS JSFacts SearchFacts ParsingFacts.

Variable URL_hostname : string → option string.
Variable entries : list Entry.
Variable groups : Groups.
Variable inputFile : string.

Local Abbreviation parse := (parseLine URL_hostname).

Lemma omap_parse_raw (l : list Entry) :
  Forall (λ e, parse (raw e) = Some e) l → omap parse (raw <$> l) = l.
Proof.
  induction 1 as [|e l He _ IH]; [done|]. csimpl. by rewrite He, IH.
Qed.

(** An entry read from a file is what its own [raw] line parses to. *)
Lemma parseFile_reparse content :
  Forall (λ e, parse (raw e) = Some e) (parseFile URL_hostname content).
Proof.
  apply Forall_forall. intros e (l & _ & He)%list_elem_of_omap.
  pose proof He as (Hraw & _)%parseLine_entry. by rewrite Hraw.
Qed.

(** X19. A save that passes its guards writes one file, and reading that
    file back gives exactly the entries whose domain is not marked, in
    their order, provided each entry is what its own raw line parses to
    and no raw line holds a line break. *)
Theorem save_round_trip input st :
  commandOf input = "save" →
  argOf input ≠ EmptyString →
  markedForDeletion st ≠ ∅ →
  argOf input ≠ inputFile →
  Forall (λ e, noLineBreak (raw e) ∧ parse (raw e) = Some e) entries →
  filter (λ e, domain e ∉ markedForDeletion st) entries ≠ [] →
  ∃ data,
    dataWritten (execCommand entries groups inputFile input st).2 = [data]
    ∧ parseFile URL_hostname data
      = filter (λ e, domain e ∉ markedForDeletion st) entries.
Proof.
  intros Hcmd He Hm Hf Hentries Hkept.
  rewrite (exec_save _ _ _ _ _ Hcmd). unfold saveCmd.
  destruct (String.eqb_spec (argOf input) EmptyString) as [|_]; [done|].
  destruct (bool_decide_reflect (size (markedForDeletion st) = 0%nat))
    as [Hsz|_]; [by apply size_zero in Hsz|].
  destruct (String.eqb_spec (argOf input) inputFile) as [|_]; [done|].
  eexists. split; [reflexivity|].
  set (kept := filter (λ e, domain e ∉ markedForDeletion st) entries) in *.
  assert (Forall (λ e, noLineBreak (raw e) ∧ parse (raw e) = Some e) kept)
    as Hk.
  { apply Forall_forall. intros e [_ Hin]%list_elem_of_filter.
    rewrite Forall_forall in Hentries. by apply Hentries. }
  assert (splitLines (join (String LF EmptyString) (raw <$> kept))
          = raw <$> kept) as Hsplit.
  { apply splitLines_join; [|by destruct kept].
    apply Forall_fmap. eapply Forall_impl; [exact Hk|]. by intros e [? _]. }
  unfold parseFile. unfold LF in Hsplit. rewrite Hsplit.
  apply omap_parse_raw. eapply Forall_impl; [exact Hk|]. by intros e [_ ?].
Qed.

End SaveRoundTrip.

(* ------------------------------------------------------------------------- *)
(** ** Start-up *)
(* ------------------------------------------------------------------------- *)

Section StartupFacts.
Import JS JSFacts SearchFacts.

Lemma arrayIncludes_spec x (l : list string) :
  arrayIncludes x l = true ↔ x ∈ l.
Proof.
  unfold arrayIncludes. rewrite existsb_exists. split.
  - intros (y & Hy%list_elem_of_In & ->%String.eqb_eq). done.
  - intros Hx. exists x. split; [by apply list_elem_of_In|].
    apply String.eqb_refl.
Qed.

Lemma indexOf_absent x (l : list string) : x ∉ l → indexOf x l = None.
Proof.
  induction l as [|y l IH]; simpl; [done|].
  intros [Hne Hl]%not_elem_of_cons.
  destruct (String.eqb_spec y x); [by subst|]. by rewrite IH.
Qed.

Lemma indexOf_first x (pre post : list string) :
  x ∉ pre → indexOf x (pre ++ x :: post) = Some (length pre).
Proof.
  induction pre as [|y pre IH]; simpl.
  - intros _. by rewrite String.eqb_refl.
  - intros [Hne Hl]%not_elem_of_cons.
    destruct (String.eqb_spec y x); [by subst|]. by rewrite IH.
Qed.

(** X20. The threshold a session starts with is never zero.  It is 3
    unless the argument after the first "--threshold" reads, by
    [parseInt], as a number other than zero, which is then taken as it
    is, negative numbers included. *)
Theorem cliThreshold_cases args :
  cliThreshold args ≠ 0
  ∧ ("--threshold" ∉ args → cliThreshold args = 3)
  ∧ (∀ pre, args = pre ++ ["--threshold"] → "--threshold" ∉ pre →
       cliThreshold args = 3)
  ∧ (∀ pre v post, args = pre ++ "--threshold" :: v :: post →
       "--threshold" ∉ pre →
       cliThreshold args
       = match parseInt v with
         | Some n => if n =? 0 then 3 else n
         | None => 3
         end).
Proof.
  split; [|split; [|split]].
  - unfold cliThreshold. destruct (indexOf _ _); [|done].
    destruct (parseInt _) as [k|]; [|done].
    by destruct (Z.eqb_spec k 0).
  - intros H. unfold cliThreshold. by rewrite indexOf_absent.
  - intros pre -> Hpre. unfold cliThreshold. rewrite indexOf_first by done.
    rewrite lookup_ge_None_2; [done|]. rewrite length_app. simpl. lia.
  - intros pre v post -> Hpre. unfold cliThreshold.
    rewrite indexOf_first by done.
    replace ((pre ++ "--threshold" :: v :: post) !! S (length pre))
      with (Some v); [done|].
    rewrite lookup_app_r by lia.
    by replace (S (length pre) - length pre)%nat with 1%nat by lia.
Qed.

(** X21. "--test" goes before everything else.  When a session is
    started, neither "--test" nor "--help" was given, the input file is
    the first argument that does not begin with a dash (a value given to
    "--threshold" in front of the file name is taken for the file), the
    file exists, and the threshold is the one of the command line. *)
Theorem mainStartup_cases existsSync args :
  ("--test" ∈ args → mainStartup existsSync args = RunTests)
  ∧ (∀ f th, mainStartup existsSync args = Start f th →
       ("--test" ∉ args) ∧ ("--help" ∉ args)
       ∧ (∃ pre post, args = pre ++ f :: post
            ∧ Forall (λ a, String.prefix "-" a = true) pre
            ∧ String.prefix "-" f = false)
       ∧ existsSync f = true
       ∧ th = cliThreshold args).
Proof.
  unfold mainStartup. split.
  - intros H%arrayIncludes_spec. by rewrite H.
  - intros f th.
    destruct (arrayIncludes "--test" args) eqn:Et; [done|].
    destruct (arrayIncludes "--help" args) eqn:Eh; [done|]. simpl.
    destruct (length args =? 0)%nat; [done|].
    destruct (cliInputFile args) as [f'|] eqn:Ef; [|done].
    destruct (existsSync f') eqn:Ex; [|done]. intros [= -> <-].
    split; [by intros ?%arrayIncludes_spec; congruence|].
    split; [by intros ?%arrayIncludes_spec; congruence|].
    split; [|done].
    apply find_first in Ef as (pre & post & -> & Hf & Hpre).
    exists pre, post. split; [done|]. split.
    + eapply Forall_impl; [exact Hpre|]. intros a Ha. simpl in Ha.
      by destruct (String.prefix "-" a).
    + by destruct (String.prefix "-" f).
Qed.

End StartupFacts.

(* ------------------------------------------------------------------------- *)
(** ** Further theorems at work on examples *)
(* ------------------------------------------------------------------------- *)

Lemma extractDomain_shape_witness :
  isSuffix "bbc.co.uk" (JS.toLowerCase "WWW.BBC.co.uk")
  ∧ (labelCount "bbc.co.uk" ≤ 3)%nat
  ∧ JS.toLowerCase "bbc.co.uk" = "bbc.co.uk".
Proof.
  exact (extractDomain_shape (λ _, Some "WWW.BBC.co.uk")
           "https://WWW.BBC.co.uk/news" "WWW.BBC.co.uk" "bbc.co.uk"
           eq_refl eq_refl).
Defined.

Lemma listed_suffix_unique_witness : "co.uk" = "co.uk".
Proof.
  exact (listed_suffix_unique "www.bbc.co.uk" "co.uk" "co.uk"
           ltac:(compute_done) ltac:(compute_done) eq_refl eq_refl).
Defined.

Lemma table_order_irrelevant_witness :
  matchTld "user.github.io" (JS.split "." "user.github.io")
           (reverse MULTI_PART_TLDS)
  = matchTld "user.github.io" (JS.split "." "user.github.io")
             MULTI_PART_TLDS.
Proof.
  apply (table_order_irrelevant "user.github.io"
           (JS.split "." "user.github.io") (reverse MULTI_PART_TLDS)).
  apply reverse_Permutation.
Defined.

Lemma parseLine_entry_witness :
  extractDomain SampleURL.hostname "https://example.com" = Some "example.com".
Proof.
  exact (proj1 (proj2 (proj2 (parseLine_entry SampleURL.hostname
           "https://example.com | A | B"
           (mkEntry "https://example.com" "A | B" "example.com"
                    "https://example.com | A | B") eq_refl)))).
Defined.

Lemma parseLine_title_witness :
  "https://example.com" = JS.trim "https://example.com"
  ∧ "A | B" = JS.trim "A | B".
Proof.
  exact (proj1 (parseLine_title SampleURL.hostname
           "https://example.com | A | B"
           (mkEntry "https://example.com" "A | B" "example.com"
                    "https://example.com | A | B") eq_refl)
           "https://example.com" "A | B" eq_refl eq_refl).
Defined.

Lemma parseFile_line_endings_witness :
  parseFile SampleURL.hostname
    (JS.join (String LF EmptyString) ["https://a.com"; "https://b.com"])
  = omap (parseLine SampleURL.hostname) ["https://a.com"; "https://b.com"]
  ∧ parseFile SampleURL.hostname
      (JS.join (String CR (String LF EmptyString))
               ["https://a.com"; "https://b.com"])
    = omap (parseLine SampleURL.hostname) ["https://a.com"; "https://b.com"].
Proof.
  apply (parseFile_line_endings SampleURL.hostname
           ["https://a.com"; "https://b.com"]).
  - unfold noLineBreak. compute_done.
  - discriminate.
Defined.

Lemma getSortedDomains_sorted_witness :
  NoDup (Map_keys (getSortedDomains exampleGroups 1)).
Proof.
  apply (proj2 (proj2 (getSortedDomains_sorted exampleGroups 1))).
  compute_done.
Defined.

Lemma getSortedDomains_stable_witness :
  filter (λ g, count g = 1%nat) (getSortedDomains exampleGroups 1)
  = filter (λ g, count g = 1%nat) exampleGroups.
Proof.
  apply (getSortedDomains_stable exampleGroups 1 1). lia.
Defined.

Lemma resolveDomain_by_number_witness :
  ∃ g, getSortedDomains exampleGroups 1 !! Z.to_nat (decimalValue "2" - 1)
       = Some g
       ∧ resolveDomain ("2" +:+ "b.org") (getSortedDomains exampleGroups 1)
         = Some g.1.
Proof.
  apply (resolveDomain_by_number "2" "b.org"
           (getSortedDomains exampleGroups 1) eq_refl eq_refl).
  vm_compute. discriminate.
Defined.

Lemma show_lists_resolved_group_witness :
  ∃ es, Map_get "github.com" exampleGroups = Some es
        ∧ execCommand exampleTabs exampleGroups "tabs.txt" "show 2"
                      (mkState 1 ∅)
          = (Continue (mkState 1 ∅), printUrls "github.com" es ++ [pressEnter])
        ∧ (NoDup (Map_keys exampleGroups) →
           threshold (mkState 1 ∅) ≤ Z.of_nat (length es)).
Proof.
  apply (proj1 (show_lists_resolved_group exampleTabs exampleGroups
                  "tabs.txt" "show 2" (mkState 1 ∅) (or_introl eq_refl))
               "github.com" eq_refl).
  discriminate.
Defined.

Lemma delete_then_undo_witness :
  stateAfter
    (execCommand exampleTabs exampleGroups "tabs.txt" "undo 2"
       (stateAfter (execCommand exampleTabs exampleGroups "tabs.txt" "d 2"
                                (mkState 1 {[ "b.org" ]}))
                   (mkState 1 {[ "b.org" ]})))
    (stateAfter (execCommand exampleTabs exampleGroups "tabs.txt" "d 2"
                             (mkState 1 {[ "b.org" ]}))
                (mkState 1 {[ "b.org" ]}))
  = mkState 1 {[ "b.org" ]}.
Proof.
  apply (delete_then_undo exampleTabs exampleGroups "tabs.txt"
           "d 2" "undo 2" "github.com" (mkState 1 {[ "b.org" ]})
           (or_intror eq_refl) (or_introl eq_refl) eq_refl).
  - discriminate.
  - reflexivity.
  - compute_done.
Defined.

(** With the input opened as tabs.txt, [save ./tabs.txt] passes the
    guard and writes under that name. *)
Lemma save_guard_compares_names_witness :
  filesWritten (execCommand exampleTabs exampleGroups "tabs.txt"
                            "save ./tabs.txt" (mkState 1 {[ "b.org" ]})).2
  = ["./tabs.txt"].
Proof.
  apply (proj2 (proj2 (save_guard_compares_names exampleTabs exampleGroups
                         "tabs.txt"))
               "save ./tabs.txt" (mkState 1 {[ "b.org" ]}) eq_refl).
  - discriminate.
  - simpl. apply non_empty_singleton_L.
  - discriminate.
Defined.

Lemma exec_frame_witness :
  JS.toLowerCase "T" = "threshold" ∨ JS.toLowerCase "T" = "t".
Proof.
  apply (proj1 (exec_frame exampleTabs exampleGroups "tabs.txt" "T 4"
                  (mkState 1 ∅) (mkState 4 ∅) [] eq_refl)).
  discriminate.
Defined.

Lemma threshold_stays_positive_witness : 4 = -2 ∨ 0 < 4.
Proof.
  apply (threshold_stays_positive exampleTabs exampleGroups "tabs.txt" (-2)
           (mkState 4 ∅)).
  apply (reachable_turn _ _ _ _ (mkState (-2) ∅) "t 4" (mkState 4 ∅) []).
  - apply reachable_start.
  - reflexivity.
Defined.

Lemma save_round_trip_witness :
  ∃ data,
    dataWritten (execCommand exampleTabs exampleGroups "tabs.txt"
                             "save out.txt"
                             (mkState 1 {[ "mygithub.com" ]})).2 = [data]
    ∧ parseFile SampleURL.hostname data
      = filter (λ e, domain e ∉ markedForDeletion
                                  (mkState 1 {[ "mygithub.com" ]}))
               exampleTabs.
Proof.
  apply (save_round_trip SampleURL.hostname exampleTabs exampleGroups
           "tabs.txt" "save out.txt" (mkState 1 {[ "mygithub.com" ]})
           eq_refl).
  - discriminate.
  - simpl. apply non_empty_singleton_L.
  - discriminate.
  - unfold exampleTabs. repeat constructor; unfold noLineBreak; compute_done.
  - compute_done.
Defined.

Lemma cliThreshold_cases_witness :
  cliThreshold ["tabs.txt"; "--threshold"; "0"] = 3
  ∧ cliThreshold ["tabs.txt"; "--threshold"; "-4"] = -4.
Proof.
  split.
  - apply (proj2 (proj2 (proj2 (cliThreshold_cases
             ["tabs.txt"; "--threshold"; "0"])))
             ["tabs.txt"] "0" [] eq_refl).
    compute_done.
  - apply (proj2 (proj2 (proj2 (cliThreshold_cases
             ["tabs.txt"; "--threshold"; "-4"])))
             ["tabs.txt"] "-4" [] eq_refl).
    compute_done.
Defined.

(** A threshold value in front of the file name is taken for the file. *)
Lemma mainStartup_cases_witness :
  ∃ pre post, ["--threshold"; "5"; "tabs.txt"] = pre ++ "5" :: post
              ∧ Forall (λ a, String.prefix "-" a = true) pre
              ∧ String.prefix "-" "5" = false.
Proof.
  destruct (proj2 (mainStartup_cases (λ _, true)
                     ["--threshold"; "5"; "tabs.txt"]) "5" 5 eq_refl)
    as (_ & _ & H & _).
  exact H.
Defined.
